(** * gowsdl: schema resolution, collision renaming and identifier mapping

    A shallow embedding of the WSDL-to-Go generator (package [gowsdl] and its
    command [cmd/gowsdl]) together with the properties its design document
    states about it.

    Conventions of the embedding.

    - A Go [string] that holds valid UTF-8 is identified with the sequence of
      its code points ([rune]s).  Every string the generator handles comes out
      of [encoding/xml], which rejects invalid UTF-8, or is a literal of the
      program.  Under this reading [[]rune(s)] and [string(rs)] are the
      identity, [strings.Map] is a filtering map over the runes, and
      [strings.Split] on [":"] splits the rune sequence at the rune [':'].
    - Go's [int] is the 64-bit two's complement integer; its wrap-around is
      [int_wrap].
    - Go maps are [gmap]s; sets encoded as [map[string]bool] are [gset]s.
    - [log.Printf] appends a line to a log that the functions return. *)

From Stdlib Require Import ZArith Lia Ascii String List.
From Stdlib.Strings Require Byte.
From stdpp Require Import gmap strings list fin_maps pretty.

(** ** Strings and integers *)

Abbreviation rune := Z (only parsing).
Abbreviation gostring := (list Z) (only parsing).

(** A program literal (ASCII) as a Go string. *)
Definition str (s : string) : gostring :=
  (λ a : ascii, Z.of_N (N_of_ascii a)) <$> list_ascii_of_string s.

(** Go's [int] on the 64-bit targets: arithmetic wraps into
    [-2^63, 2^63). *)
Definition int_wrap (z : Z) : Z := ((z + 2 ^ 63) `mod` 2 ^ 64 - 2 ^ 63)%Z.

(** The verb [%d] of [fmt.Sprintf] on an [int]. *)
Definition fmt_d (z : Z) : gostring := str (pretty z).

(** ** The document model

    The struct declarations of the XSD and WSDL model are in files of the
    package that are not among the sources.  The records below follow the
    data model of the design document and carry, under the names the code
    uses, the fields that the code under study reads or writes.  The code
    holds schemas, types and elements by pointer and [xml.Unmarshal] makes
    a fresh one for each, so no two entries of a list alias: the update of a
    name in place is the update of that entry. *)

Module XSDComplexType.
(** Modelled from the spec: the struct [XSDComplexType]; a complex type has
    a name, its content is opaque. *)
Record t := mk { Name : gostring }.
End XSDComplexType.

Module XSDSimpleType.
(** Modelled from the spec: the struct [XSDSimpleType]; a simple type has a
    name, its content is opaque. *)
Record t := mk { Name : gostring }.
End XSDSimpleType.

Module XSDElement.
(** Modelled from the spec: the struct [XSDElement]; an element has a name
    and an optional declared type reference (the Go field [Type]), empty
    when absent. *)
Record t := mk { Name : gostring; Type_ : gostring }.
End XSDElement.

Module XSDImport.
(** Modelled from the spec: the struct [XSDImport]; an import names a
    namespace and may give the location of its schema. *)
Record t := mk { Namespace : gostring; SchemaLocation : gostring }.
End XSDImport.

Module XSDInclude.
(** Modelled from the spec: the struct [XSDInclude]; an include gives the
    location of a schema. *)
Record t := mk { SchemaLocation : gostring }.
End XSDInclude.

Module XSDSchema.
(** Modelled from the spec: the struct [XSDSchema]; a schema has a target
    namespace and ordered sequences of imports, includes, elements, complex
    types and simple types. *)
Record t := mk {
  TargetNamespace : gostring;
  Imports : list XSDImport.t;
  Includes : list XSDInclude.t;
  Elements : list XSDElement.t;
  ComplexTypes : list XSDComplexType.t;
  SimpleType : list XSDSimpleType.t
}.
End XSDSchema.

(** ** Collision resolution (the renaming part of [Start]) *)

(** [seen[k]] on a [map[string]int]: a missing key reads as zero. *)
Definition seen_get (seen : gmap (list Z) Z) (k : gostring) : Z :=
  default 0%Z (seen !! k).

(** [seen[k]++] *)
Definition seen_incr (seen : gmap (list Z) Z) (k : gostring) : gmap (list Z) Z :=
  <[k := int_wrap (seen_get seen k + 1)]> seen.

(** The first loop of [Start]: count every complex type name, then every
    simple type name, schema by schema. *)
Definition count_schema (seen : gmap (list Z) Z) (schema : XSDSchema.t)
  : gmap (list Z) Z :=
  foldl seen_incr
    (foldl seen_incr seen
       (XSDComplexType.Name <$> XSDSchema.ComplexTypes schema))
    (XSDSimpleType.Name <$> XSDSchema.SimpleType schema).

Definition count_names (schemas : list XSDSchema.t) : gmap (list Z) Z :=
  foldl count_schema ∅ schemas.

(** The second loop: [if v < 2 { delete(seen, k) }] for every entry. *)
Definition drop_unique (seen : gmap (list Z) Z) : gmap (list Z) Z :=
  filter (λ kv : list Z * Z, ¬ (kv.2 < 2)%Z) seen.

(** State threaded through the third loop: the counters, the collision map
    [g.resolveCollisions] and the log. *)
Record RenameState := mkRenameState {
  seen : gmap (list Z) Z;
  resolveCollisions : gmap (list Z) (list Z);
  logged : list (list Z)
}.

(** [fmt.Sprintf("%s/%s", schema.TargetNamespace, org)] *)
Definition collision_key (ns org : gostring) : gostring :=
  ns ++ str "/" ++ org.

Definition collision_log (kind org update ns : gostring) : gostring :=
  str "Collision detected: " ++ kind ++ str " '" ++ org ++
  str "' renamed to '" ++ update ++ str "' in namespace '" ++ ns ++ str "'".

(** The body shared by the two inner loops, on one type declaration named
    [name] of the schema with target namespace [ns]; returns the name the
    declaration carries afterwards. *)
Definition rename_decl (kind ns : gostring) (st : RenameState) (name : gostring)
  : gostring * RenameState :=
  let num := seen_get (seen st) name in
  if decide (0 < num)%Z then
    let org := name in
    let update := org ++ fmt_d num in
    (update,
     {| seen := <[org := int_wrap (num - 1)]> (seen st);
        resolveCollisions :=
          <[collision_key ns org := update]> (resolveCollisions st);
        logged := logged st ++ [collision_log kind org update ns] |})
  else (name, st).

Fixpoint rename_complex (ns : gostring) (st : RenameState)
  (l : list XSDComplexType.t) : list XSDComplexType.t * RenameState :=
  match l with
  | [] => ([], st)
  | complexType :: l' =>
      let '(update, st1) :=
        rename_decl (str "ComplexType") ns st (XSDComplexType.Name complexType) in
      let '(l'', st2) := rename_complex ns st1 l' in
      (XSDComplexType.mk update :: l'', st2)
  end.

Fixpoint rename_simple (ns : gostring) (st : RenameState)
  (l : list XSDSimpleType.t) : list XSDSimpleType.t * RenameState :=
  match l with
  | [] => ([], st)
  | simpleType :: l' =>
      let '(update, st1) :=
        rename_decl (str "SimpleType") ns st (XSDSimpleType.Name simpleType) in
      let '(l'', st2) := rename_simple ns st1 l' in
      (XSDSimpleType.mk update :: l'', st2)
  end.

Definition rename_schema (st : RenameState) (schema : XSDSchema.t)
  : XSDSchema.t * RenameState :=
  let ns := XSDSchema.TargetNamespace schema in
  let '(cts, st1) := rename_complex ns st (XSDSchema.ComplexTypes schema) in
  let '(sts, st2) := rename_simple ns st1 (XSDSchema.SimpleType schema) in
  (XSDSchema.mk ns (XSDSchema.Imports schema) (XSDSchema.Includes schema)
     (XSDSchema.Elements schema) cts sts, st2).

Fixpoint rename_schemas (st : RenameState) (schemas : list XSDSchema.t)
  : list XSDSchema.t * RenameState :=
  match schemas with
  | [] => ([], st)
  | schema :: rest =>
      let '(schema', st1) := rename_schema st schema in
      let '(rest', st2) := rename_schemas st1 rest in
      (schema' :: rest', st2)
  end.

(** The collision-resolution segment of [Start], from
    [g.resolveCollisions = make(map[string]string)] up to the traverser
    pass, on the schema collection left by [unmarshal]. *)
Definition resolve_collisions (schemas : list XSDSchema.t)
  : list XSDSchema.t * RenameState :=
  rename_schemas
    {| seen := drop_unique (count_names schemas);
       resolveCollisions := ∅;
       logged := [] |}
    schemas.

(** Declarations in schema-traversal order. *)
Definition decl_names (schema : XSDSchema.t) : list gostring :=
  (XSDComplexType.Name <$> XSDSchema.ComplexTypes schema) ++
  (XSDSimpleType.Name <$> XSDSchema.SimpleType schema).

Definition all_decl_names (schemas : list XSDSchema.t) : list gostring :=
  schemas ≫= decl_names.

Definition all_decls (schemas : list XSDSchema.t) : list (gostring * gostring) :=
  schemas ≫= λ schema,
    (λ n, (XSDSchema.TargetNamespace schema, n)) <$> decl_names schema.

(** Every declaration of the collection with the loop that renames it and
    the namespace of its schema, in traversal order. *)
Definition kinded_decls (schemas : list XSDSchema.t)
  : list (gostring * gostring * gostring) :=
  schemas ≫= λ schema,
    ((λ ct, (str "ComplexType", XSDSchema.TargetNamespace schema,
             XSDComplexType.Name ct)) <$> XSDSchema.ComplexTypes schema) ++
    ((λ st, (str "SimpleType", XSDSchema.TargetNamespace schema,
             XSDSimpleType.Name st)) <$> XSDSchema.SimpleType schema).

(** The third loop seen on the flat sequence of declarations. *)
Fixpoint rename_flat (st : RenameState)
  (l : list (gostring * gostring * gostring)) : list gostring * RenameState :=
  match l with
  | [] => ([], st)
  | (kind, ns, name) :: l' =>
      let '(update, st1) := rename_decl kind ns st name in
      let '(us, st2) := rename_flat st1 l' in
      (update :: us, st2)
  end.

(** *** The renaming as the design document words it *)

(** Number of declarations named [n] among [l]. *)
Definition occurrences (n : gostring) (l : list gostring) : Z :=
  Z.of_nat (length (filter (n =.) l)).

(** The name of the declaration at position [i]: a name that occurs at least
    twice gets the remaining occurrence count appended, the count being the
    total minus the occurrences already renamed. *)
Definition spec_new_name (names : list gostring) (i : nat) (n : gostring)
  : gostring :=
  if decide (2 ≤ occurrences n names)%Z
  then n ++ fmt_d (occurrences n names - occurrences n (take i names))
  else n.

Definition spec_renamed (names : list gostring) : list gostring :=
  imap (spec_new_name names) names.

(** The entries written to the collision map, in the order of the writes. *)
Definition spec_entries (decls : list (gostring * gostring))
  : list (gostring * gostring) :=
  omap id
    (imap (λ i d,
       if decide (2 ≤ occurrences d.2 decls.*2)%Z
       then Some (collision_key d.1 d.2, spec_new_name decls.*2 i d.2)
       else None) decls).

(** A later write under the same key replaces the earlier one. *)
Definition spec_collision_map (decls : list (gostring * gostring))
  : gmap (list Z) (list Z) :=
  list_to_map (reverse (spec_entries decls)).

(** What the counters hold once the declarations [done] have been visited:
    for a colliding name the occurrences still to come, zero for the rest. *)
Definition seen_inv (names done : list gostring) (st : RenameState) : Prop :=
  ∀ n, seen_get (seen st) n =
       if decide (2 ≤ occurrences n names)%Z
       then (occurrences n names - occurrences n done)%Z else 0%Z.

Definition write_entry (m : gmap (list Z) (list Z)) (e : list Z * list Z)
  : gmap (list Z) (list Z) := <[e.1 := e.2]> m.

(** Entries written for the declarations [l] that start at position [k]. *)
Definition entries_from (names : list gostring) (k : nat)
  (l : list (gostring * gostring * gostring)) : list (gostring * gostring) :=
  omap id
    (imap (λ i d,
       if decide (2 ≤ occurrences d.2 names)%Z
       then Some (collision_key d.1.2 d.2, spec_new_name names (k + i) d.2)
       else None) l).

(** Renaming touches the names of the type declarations and nothing else
    of a schema. *)
Definition same_frame (s s' : XSDSchema.t) : Prop :=
  XSDSchema.TargetNamespace s' = XSDSchema.TargetNamespace s ∧
  XSDSchema.Imports s' = XSDSchema.Imports s ∧
  XSDSchema.Includes s' = XSDSchema.Includes s ∧
  XSDSchema.Elements s' = XSDSchema.Elements s ∧
  length (XSDSchema.ComplexTypes s') = length (XSDSchema.ComplexTypes s) ∧
  length (XSDSchema.SimpleType s') = length (XSDSchema.SimpleType s).

(** Two schemas that both declare [Item]; the first also declares
    [Item1]. *)
Definition two_items : list XSDSchema.t :=
  [ XSDSchema.mk (str "urn:a") [] [] []
      [XSDComplexType.mk (str "Item"); XSDComplexType.mk (str "Item1")] [];
    XSDSchema.mk (str "urn:b") [] [] []
      [XSDComplexType.mk (str "Item")] [] ].

(** ** Type and identifier mapping *)

(** A rune literal (ASCII). *)
Definition chr (a : ascii) : rune := Z.of_N (N_of_ascii a).
Arguments chr _%_char.

(** The tables of Go's [unicode] package for the code points whose answer
    that package does not compute by a comparison in its own code: the letter
    and digit categories, the case mappings, the white-space property and the
    case-folding orbits.  They are data of the Go library; every definition
    below takes them as a parameter. *)
Record UnicodeTables := mkUnicodeTables {
  uni_IsLetter : rune → bool;
  uni_IsDigit : rune → bool;
  uni_IsSpace : rune → bool;
  uni_ToUpper : rune → rune;
  uni_ToLower : rune → rune;
  uni_FoldsTo : rune → rune → bool
}.

(** Tables that know no character beyond ASCII; they serve to evaluate the
    functions on ASCII inputs, which never consult the tables. *)
Definition ascii_tables : UnicodeTables :=
  {| uni_IsLetter := λ _, false;
     uni_IsDigit := λ _, false;
     uni_IsSpace := λ _, false;
     uni_ToUpper := λ r, r;
     uni_ToLower := λ r, r;
     uni_FoldsTo := λ _ _, false |}.

Section mapper.
Context (uni : UnicodeTables).
Local Open Scope Z_scope.

Definition MaxASCII : rune := 127.
Definition MaxLatin1 : rune := 255.

(** [unicode.IsLetter]: the ASCII letters, the table beyond. *)
Definition unicode_IsLetter (r : rune) : bool :=
  if decide (0 ≤ r ≤ MaxASCII)
  then bool_decide (chr "A" ≤ r ≤ chr "Z") || bool_decide (chr "a" ≤ r ≤ chr "z")
  else uni_IsLetter uni r.

(** [unicode.IsDigit]: ['0' <= r && r <= '9'] up to Latin-1, the table
    beyond. *)
Definition unicode_IsDigit (r : rune) : bool :=
  if decide (r ≤ MaxLatin1)
  then bool_decide (chr "0" ≤ r ≤ chr "9")
  else uni_IsDigit uni r.

(** [unicode.ToUpper] *)
Definition unicode_ToUpper (r : rune) : rune :=
  if decide (r ≤ MaxASCII)
  then (if decide (chr "a" ≤ r ≤ chr "z") then r - (chr "a" - chr "A") else r)
  else uni_ToUpper uni r.

(** [unicode.ToLower] *)
Definition unicode_ToLower (r : rune) : rune :=
  if decide (r ≤ MaxASCII)
  then (if decide (chr "A" ≤ r ≤ chr "Z") then r + (chr "a" - chr "A") else r)
  else uni_ToLower uni r.

(** [strings.Map]: a negative result drops the rune. *)
Definition strings_Map (mapping : rune → rune) (s : gostring) : gostring :=
  omap (λ r, let r' := mapping r in if decide (r' < 0) then None else Some r') s.

(** [strings.ToLower]; on an ASCII string the byte loop of the library and
    this mapping agree. *)
Definition strings_ToLower (s : gostring) : gostring :=
  strings_Map unicode_ToLower s.

(** [strings.Split(s, ":")]: the pieces between the separators, one more
    than there are separators. *)
Fixpoint strings_Split (sep : rune) (s : gostring) : list gostring :=
  match s with
  | [] => [[]]
  | r :: s' =>
      if decide (r = sep) then [] :: strings_Split sep s'
      else match strings_Split sep s' with
           | piece :: pieces => (r :: piece) :: pieces
           | [] => [[r]]
           end
  end.

(** [strings.ReplaceAll(s, old, new)] for a one-rune [old]. *)
Definition strings_ReplaceAll (s : gostring) (old : rune) (new : gostring)
  : gostring :=
  s ≫= λ r, if decide (r = old) then new else [r].

Definition table (l : list (string * string)) : gmap (list Z) (list Z) :=
  list_to_map ((λ kv, (str kv.1, str kv.2)) <$> l).

Definition reservedWords_entries : list (string * string) := [
  ("break", "break_"); ("default", "default_"); ("func", "func_");
  ("interface", "interface_"); ("select", "select_"); ("case", "case_");
  ("defer", "defer_"); ("go", "go_"); ("map", "map_");
  ("struct", "struct_"); ("chan", "chan_"); ("else", "else_");
  ("goto", "goto_"); ("package", "package_"); ("switch", "switch_");
  ("const", "const_"); ("fallthrough", "fallthrough_"); ("if", "if_");
  ("range", "range_"); ("type", "type_"); ("continue", "continue_");
  ("for", "for_"); ("import", "import_"); ("return", "return_");
  ("var", "var_") ]%string.

Definition reservedWords : gmap (list Z) (list Z) := table reservedWords_entries.

Definition reservedWordsInAttr_entries : list (string * string) := [
  ("break", "break_"); ("default", "default_"); ("func", "func_");
  ("interface", "interface_"); ("select", "select_"); ("case", "case_");
  ("defer", "defer_"); ("go", "go_"); ("map", "map_");
  ("struct", "struct_"); ("chan", "chan_"); ("else", "else_");
  ("goto", "goto_"); ("package", "package_"); ("switch", "switch_");
  ("const", "const_"); ("fallthrough", "fallthrough_"); ("if", "if_");
  ("range", "range_"); ("type", "type_"); ("continue", "continue_");
  ("for", "for_"); ("import", "import_"); ("return", "return_");
  ("var", "var_"); ("string", "astring") ]%string.

Definition reservedWordsInAttr : gmap (list Z) (list Z) := table reservedWordsInAttr_entries.

(** Both keys are one rune long. *)
Definition specialCharacterMapping : list (rune * gostring) :=
  [ (chr "+", str "Plus"); (chr "@", str "At") ].

(** A read of a [map[string]string]: a missing key reads as the empty
    string. *)
Definition map_get (m : gmap (list Z) (list Z)) (k : gostring) : gostring :=
  default [] (m !! k).

(** The [mapping] closure of [normalize]. *)
Definition normalize_mapping (r : rune) : rune :=
  if decide (r = chr "." ∨ r = chr "-") then chr "_"
  else if unicode_IsLetter r || unicode_IsDigit r || bool_decide (r = chr "_")
       then r
       else -1.

(** [normalize], the [range] over [specialCharacterMapping] taken in the
    order [order]. *)
Definition normalize_in (order : list (rune * gostring)) (value : gostring)
  : gostring :=
  strings_Map normalize_mapping
    (foldl (λ value kv, strings_ReplaceAll value kv.1 kv.2) value order).

Definition normalize (value : gostring) : gostring :=
  normalize_in specialCharacterMapping value.

Definition replaceReservedWords (identifier : gostring) : gostring :=
  let value := map_get reservedWords identifier in
  if decide (value ≠ []) then value else normalize identifier.

Definition replaceAttrReservedWords (identifier : gostring) : gostring :=
  let value := map_get reservedWordsInAttr identifier in
  if decide (value ≠ []) then value else normalize identifier.

Definition xsd2GoTypes_entries : list (string * string) := [
  ("string", "string"); ("token", "string"); ("float", "float32");
  ("double", "float64"); ("decimal", "float64"); ("integer", "int32");
  ("int", "int32"); ("short", "int16"); ("byte", "int8"); ("long", "int64");
  ("boolean", "bool"); ("datetime", "string"); ("date", "string");
  ("time", "string"); ("base64binary", "[]byte"); ("hexbinary", "[]byte");
  ("unsignedint", "uint32"); ("nonnegativeinteger", "uint32");
  ("unsignedshort", "uint16"); ("unsignedbyte", "byte");
  ("unsignedlong", "uint64"); ("anytype", "AnyType"); ("ncname", "NCName");
  ("anyuri", "AnyURI");
  ("sdpstring", "string"); ("sdpboolean", "bool"); ("sdpbyte", "int8");
  ("sdpbigdecimal", "float64"); ("sdplong", "int64"); ("sdpinteger", "int32");
  ("sdpbiginteger", "int32"); ("sdpfloat", "float32");
  ("sdpdouble", "float64"); ("sdpshort", "int16"); ("sdpdate", "string");
  ("sdptime", "string"); ("sdpdatetime", "string"); ("timestamp", "int64")
  ]%string.

Definition xsd2GoTypes : gmap (list Z) (list Z) := table xsd2GoTypes_entries.

Definition basicTypes_entries : list (string * string) := [
  ("string", "string"); ("float32", "float32"); ("float64", "float64");
  ("int", "int"); ("int8", "int8"); ("int16", "int16"); ("int32", "int32");
  ("int64", "int64"); ("bool", "bool"); ("time.Time", "time.Time");
  ("[]byte", "[]byte"); ("byte", "byte"); ("uint16", "uint16");
  ("uint32", "uint32"); ("uinit64", "uint64");
  ("interface{}", "interface{}") ]%string.

Definition basicTypes : gmap (list Z) (list Z) := table basicTypes_entries.

Definition isBasicType (identifier : gostring) : bool :=
  bool_decide (is_Some (basicTypes !! identifier)).

Definition makePublic (identifier : gostring) : gostring :=
  if isBasicType identifier then identifier
  else match identifier with
       | [] => str "EmptyString"
       | r :: field => unicode_ToUpper r :: field
       end.

Definition makePrivate (identifier : gostring) : gostring :=
  match identifier with
  | [] => identifier
  | r :: field => unicode_ToLower r :: field
  end.

(** The namespace stripping shared by [stripns], [removeNS] and
    [toGoType]: the second piece when there are exactly two, the first
    otherwise. *)
Definition stripns (xsdType : gostring) : gostring :=
  match strings_Split (chr ":") xsdType with
  | [_; t] => t
  | t :: _ => t
  | [] => []
  end.

Definition toGoType (xsdType : gostring) (nillable : bool) : gostring :=
  let t := stripns xsdType in
  let value := map_get xsd2GoTypes (strings_ToLower t) in
  if decide (value ≠ []) then
    (if nillable then str "*" ++ value else value)
  else str "*" ++ replaceReservedWords (makePublic t).

End mapper.

(** The keywords of the Go language, as its specification lists them. *)
Definition go_keywords : list gostring := str <$> [
  "break"; "default"; "func"; "interface"; "select";
  "case"; "defer"; "go"; "map"; "struct";
  "chan"; "else"; "goto"; "package"; "switch";
  "const"; "fallthrough"; "if"; "range"; "type";
  "continue"; "for"; "import"; "return"; "var" ]%string.

(** An identifier made of letters, digits and underscores only. *)
Definition sanitized (uni : UnicodeTables) (identifier : gostring) : Prop :=
  Forall (λ r, unicode_IsLetter uni r || unicode_IsDigit uni r
               || bool_decide (r = chr "_") = true) identifier.

(** A pointer type of the generated code starts with the indirection
    marker. *)
Definition is_pointer (goType : gostring) : bool :=
  bool_decide (head goType = Some (chr "*")).

(** The runes of a Go string are code points, never negative. *)
Definition wf_string (s : gostring) : Prop := Forall (λ r, (0 ≤ r)%Z) s.

(** The spellings listed in [basicTypes]. *)
Definition basic_spellings : list gostring := str <$> [
  "string"; "float32"; "float64"; "int"; "int8"; "int16"; "int32"; "int64";
  "bool"; "time.Time"; "[]byte"; "byte"; "uint16"; "uint32"; "uinit64";
  "interface{}" ]%string.

(** ** Message lookup *)

Module WSDLPart.
(** Modelled from the spec: the struct [WSDLPart]; a part refers to a type
    (the Go field [Type]) or to an element, each empty when absent. *)
Record t := mk { Element : gostring; Type_ : gostring }.
End WSDLPart.

Module WSDLMessage.
(** Modelled from the spec: the struct [WSDLMessage]; a message has a name
    and an ordered sequence of parts. *)
Record t := mk { Name : gostring; Parts : list WSDLPart.t }.
End WSDLMessage.

Module WSDL.
(** Modelled from the spec: the struct [WSDL], of which the lookups read
    [Types.Schemas] and [Messages]. *)
Record t := mk {
  Schemas : list XSDSchema.t;
  Messages : list WSDLMessage.t
}.
End WSDL.

Section lookup.
Context (uni : UnicodeTables).
Local Open Scope Z_scope.

Definition RuneSelf : rune := 128.

(** One step of the rune loop of [strings.EqualFold]: equal runes, or the
    two cases of an ASCII letter, or (when the larger rune is not ASCII) the
    [unicode.SimpleFold] orbit of the smaller one reaching the larger. *)
Definition rune_EqualFold (sr tr : rune) : bool :=
  if decide (tr = sr) then true
  else
    let lo := Z.min sr tr in
    let hi := Z.max sr tr in
    if decide (hi < RuneSelf)
    then bool_decide (chr "A" ≤ lo ≤ chr "Z" ∧ hi = lo + chr "a" - chr "A")
    else uni_FoldsTo uni lo hi.

Fixpoint strings_EqualFold (s t : gostring) : bool :=
  match s, t with
  | [], [] => true
  | sr :: s', tr :: t' => rune_EqualFold sr tr && strings_EqualFold s' t'
  | _, _ => false
  end.

(** What [findType] returns at an element that matches. *)
Definition element_type (el : XSDElement.t) : gostring :=
  if decide (XSDElement.Type_ el ≠ []) then stripns (XSDElement.Type_ el)
  else XSDElement.Name el.

(** The loop over the elements of one schema; [None] when it ends without
    a [return]. *)
Fixpoint findType_elements (elRef : gostring) (els : list XSDElement.t)
  : option gostring :=
  match els with
  | [] => None
  | el :: els' =>
      if strings_EqualFold elRef (XSDElement.Name el)
      then Some (element_type el)
      else findType_elements elRef els'
  end.

(** The loop over the schemas. *)
Fixpoint findType_schemas (elRef : gostring) (schemas : list XSDSchema.t)
  : option gostring :=
  match schemas with
  | [] => None
  | schema :: rest =>
      match findType_elements elRef (XSDSchema.Elements schema) with
      | Some t => Some t
      | None => findType_schemas elRef rest
      end
  end.

Definition no_parts_warning (name : gostring) : gostring :=
  str "[WARN] " ++ name ++
  str " message doesn't have any parts, ignoring message...".

(** The loop over the messages; the result and the lines logged. *)
Fixpoint findType_messages (schemas : list XSDSchema.t) (message : gostring)
  (msgs : list WSDLMessage.t) : gostring * list gostring :=
  match msgs with
  | [] => ([], [])
  | msg :: rest =>
      if decide (WSDLMessage.Name msg ≠ message)
      then findType_messages schemas message rest
      else
        match WSDLMessage.Parts msg with
        | [] =>
            let '(t, lines) := findType_messages schemas message rest in
            (t, no_parts_warning (WSDLMessage.Name msg) :: lines)
        | part :: _ =>
            if decide (WSDLPart.Type_ part ≠ [])
            then (stripns (WSDLPart.Type_ part), [])
            else
              match findType_schemas (stripns (WSDLPart.Element part)) schemas
              with
              | Some t => (t, [])
              | None => findType_messages schemas message rest
              end
        end
  end.

Definition findType (wsdl : WSDL.t) (message : gostring)
  : gostring * list gostring :=
  findType_messages (WSDL.Schemas wsdl) (stripns message) (WSDL.Messages wsdl).

(** *** The lookup as the design document words it *)

(** The type carried by a part: its declared type, or the type of the first
    element, over all schemas, whose name matches the element reference
    without regard to case. *)
Definition carried_type (schemas : list XSDSchema.t) (part : WSDLPart.t)
  : option gostring :=
  if decide (WSDLPart.Type_ part ≠ []) then Some (stripns (WSDLPart.Type_ part))
  else
    element_type <$>
      head (filter
              (λ el, strings_EqualFold (stripns (WSDLPart.Element part))
                       (XSDElement.Name el) = true)
              (schemas ≫= XSDSchema.Elements)).

(** The messages called [message], by their first parts, in order; the
    first one that resolves gives the result, the empty string stands for
    none. *)
Definition spec_findType (wsdl : WSDL.t) (message : gostring) : gostring :=
  default []
    (head (omap (λ msg, head (WSDLMessage.Parts msg)
                        ≫= carried_type (WSDL.Schemas wsdl))
             (filter (λ msg, WSDLMessage.Name msg = stripns message)
                (WSDL.Messages wsdl)))).

End lookup.

(** ** Resolution of external schemas *)

(** Modelled from the spec: the type [Location] of the package (its file is
    not among the sources) with its methods [Parse], which computes the
    absolute location of a reference read at a base location, and
    [String], the absolute location as a string.  With them, the outside
    world: [g.fetchFile] reads a file or downloads a URL, [xml.Unmarshal]
    decodes a schema.  An error is its message. *)
Record World (Location : Type) := mkWorld {
  Location_Parse : Location → gostring → list Z + Location;
  Location_String : Location → gostring;
  fetchFile : Location → list Z + list Byte.byte;
  xml_Unmarshal : list Byte.byte → list Z + XSDSchema.t
}.
Arguments Location_Parse {Location} _ _ _.
Arguments Location_String {Location} _ _.
Arguments fetchFile {Location} _ _.
Arguments xml_Unmarshal {Location} _ _.

Section resolver.
Context {Location : Type} (w : World Location).

(** The part of the generator that resolution changes:
    [g.resolvedXSDExternals], [g.wsdl.Types.Schemas], and the calls of
    [g.fetchFile] made so far.  The warning that the import loop logs for
    an import without location changes nothing of it. *)
Record Resolver := mkResolver {
  resolvedXSDExternals : gset (list Z);
  Types_Schemas : list XSDSchema.t;
  fetched : list Location
}.

(** How a call ends: normally, with an error, or, in the model only, by
    running out of recursion depth. *)
Inductive Outcome :=
| Done (g : Resolver)
| Failed (err : list Z) (g : Resolver)
| OutOfFuel.

(** The closure [download] of [resolveXSDExternals]; [resolve] is the
    recursive call. *)
Definition download (resolve : XSDSchema.t → Location → Resolver → Outcome)
  (base : Location) (ref : gostring) (g : Resolver) : Outcome :=
  match Location_Parse w base ref with
  | inl err => Failed err g
  | inr location =>
      let schemaKey := Location_String w location in
      if decide (schemaKey ∈ resolvedXSDExternals g) then Done g
      else
        let g1 :=
          {| resolvedXSDExternals := {[schemaKey]} ∪ resolvedXSDExternals g;
             Types_Schemas := Types_Schemas g;
             fetched := fetched g ++ [location] |} in
        match fetchFile w location with
        | inl err => Failed err g1
        | inr data =>
            match xml_Unmarshal w data with
            | inl err => Failed err g1
            | inr newschema =>
                let resolved :=
                  if decide (0 < length (XSDSchema.Includes newschema) ∨
                             0 < length (XSDSchema.Imports newschema))
                  then resolve newschema location g1
                  else Done g1 in
                match resolved with
                | Done g2 =>
                    Done {| resolvedXSDExternals := resolvedXSDExternals g2;
                            Types_Schemas := Types_Schemas g2 ++ [newschema];
                            fetched := fetched g2 |}
                | other => other
                end
            end
        end
  end.

(** The loop over [schema.Imports]; an import without location is
    skipped. *)
Fixpoint imports_loop (dl : gostring → Resolver → Outcome)
  (imports : list XSDImport.t) (g : Resolver) : Outcome :=
  match imports with
  | [] => Done g
  | impts :: rest =>
      if decide (XSDImport.SchemaLocation impts = [])
      then imports_loop dl rest g
      else match dl (XSDImport.SchemaLocation impts) g with
           | Done g' => imports_loop dl rest g'
           | other => other
           end
  end.

(** The loop over [schema.Includes]. *)
Fixpoint includes_loop (dl : gostring → Resolver → Outcome)
  (includes : list XSDInclude.t) (g : Resolver) : Outcome :=
  match includes with
  | [] => Done g
  | incl :: rest =>
      match dl (XSDInclude.SchemaLocation incl) g with
      | Done g' => includes_loop dl rest g'
      | other => other
      end
  end.

(** [resolveXSDExternals]; [fuel] bounds the depth of the recursion. *)
Fixpoint resolveXSDExternals (fuel : nat) (schema : XSDSchema.t)
  (loc : Location) (g : Resolver) : Outcome :=
  match fuel with
  | 0 => OutOfFuel
  | S fuel' =>
      let dl := download (resolveXSDExternals fuel') loc in
      match imports_loop dl (XSDSchema.Imports schema) g with
      | Done g' => includes_loop dl (XSDSchema.Includes schema) g'
      | other => other
      end
  end.

(** The loop of [unmarshal] over the schemas that the WSDL embeds; a
    [range] does not see the schemas appended meanwhile. *)
Fixpoint unmarshal_loop (fuel : nat) (schemas : list XSDSchema.t)
  (loc : Location) (g : Resolver) : Outcome :=
  match schemas with
  | [] => Done g
  | schema :: rest =>
      match resolveXSDExternals fuel schema loc g with
      | Done g' => unmarshal_loop fuel rest loc g'
      | other => other
      end
  end.

(** Resolution for a WSDL at [loc] that embeds the schemas [roots]. *)
Definition unmarshal_externals (fuel : nat) (roots : list XSDSchema.t)
  (loc : Location) : Outcome :=
  unmarshal_loop fuel roots loc
    {| resolvedXSDExternals := ∅; Types_Schemas := roots; fetched := [] |}.

(** The references that the two loops hand to [download], in order. *)
Definition external_refs (schema : XSDSchema.t) : list gostring :=
  filter (λ ref, ref ≠ []) (XSDImport.SchemaLocation <$> XSDSchema.Imports schema)
  ++ (XSDInclude.SchemaLocation <$> XSDSchema.Includes schema).

(** The two loops as one. *)
Fixpoint download_all (dl : gostring → Resolver → Outcome)
  (refs : list gostring) (g : Resolver) : Outcome :=
  match refs with
  | [] => Done g
  | ref :: rest =>
      match dl ref g with
      | Done g' => download_all dl rest g'
      | other => other
      end
  end.

(** The schema found at a location, if it can be fetched and decoded. *)
Definition schema_at (l : Location) : option XSDSchema.t :=
  match fetchFile w l with
  | inr data =>
      match xml_Unmarshal w data with
      | inr schema => Some schema
      | inl _ => None
      end
  | inl _ => None
  end.

(** Every reference of [schema], read at [base], is a location whose key
    is in [resolved]. *)
Definition refs_resolved (resolved : gset (list Z)) (base : Location)
  (schema : XSDSchema.t) : Prop :=
  ∀ ref, ref ∈ external_refs schema →
    ∃ l, Location_Parse w base ref = inr l ∧ Location_String w l ∈ resolved.

(** The references of [schema], read at [base], have their keys in
    [U]. *)
Definition refs_within (U : gset (list Z)) (base : Location)
  (schema : XSDSchema.t) : Prop :=
  ∀ ref l, ref ∈ external_refs schema →
    Location_Parse w base ref = inr l → Location_String w l ∈ U.

(** [U] holds the keys of a finite import graph: the references of the
    schema found at a location with a key in [U] have their keys in [U]. *)
Definition closed_world (U : gset (list Z)) : Prop :=
  ∀ l schema, Location_String w l ∈ U → schema_at l = Some schema →
    refs_within U l schema.

(** [g'] comes from [g] by the fetches [new], each of a key not seen
    before. *)
Definition extends (g : Resolver) (new : list Location) (g' : Resolver) : Prop :=
  fetched g' = fetched g ++ new ∧
  resolvedXSDExternals g' =
    resolvedXSDExternals g ∪ list_to_set (Location_String w <$> new) ∧
  NoDup (Location_String w <$> new) ∧
  Forall (λ l, Location_String w l ∉ resolvedXSDExternals g) new.

(** Moreover every fetched schema has been appended, once, and its
    references are resolved. *)
Definition completes (g : Resolver) (new : list Location) (g' : Resolver)
  : Prop :=
  extends g new g' ∧
  Types_Schemas g' ≡ₚ Types_Schemas g ++ omap schema_at new ∧
  Forall (λ l, ∃ schema, schema_at l = Some schema ∧
               refs_resolved (resolvedXSDExternals g') l schema) new.

(** What holds of a call started in [g]. *)
Definition resolve_post (base : Location) (refs : list gostring)
  (g : Resolver) (o : Outcome) : Prop :=
  match o with
  | OutOfFuel => False
  | Failed _ g' => ∃ new, extends g new g'
  | Done g' =>
      ∃ new, completes g new g' ∧
        ∀ ref, ref ∈ refs →
          ∃ l, Location_Parse w base ref = inr l ∧
               Location_String w l ∈ resolvedXSDExternals g'
  end.

End resolver.

(** A world with a cycle: the WSDL embeds a schema that imports
    [a.xsd]; [a.xsd] includes [b.xsd] and [b.xsd] includes [a.xsd].
    Locations are their absolute names. *)
Definition cyc_a : XSDSchema.t :=
  XSDSchema.mk (str "urn:a") [] [XSDInclude.mk (str "b.xsd")] [] [] [].

Definition cyc_b : XSDSchema.t :=
  XSDSchema.mk (str "urn:a") [] [XSDInclude.mk (str "a.xsd")] [] [] [].

Definition cyc_root : XSDSchema.t :=
  XSDSchema.mk (str "urn:svc") [XSDImport.mk (str "urn:a") (str "a.xsd")]
    [] [] [] [].

Definition cyc_keys : gset (list Z) := {[ str "a.xsd"; str "b.xsd" ]}.

Definition cyc_Parse (base : gostring) (ref : gostring) : list Z + gostring :=
  inr ref.

Definition cyc_fetchFile (l : gostring) : list Z + list Byte.byte :=
  if decide (l = str "a.xsd") then inr [Byte.x61]
  else if decide (l = str "b.xsd") then inr [Byte.x62]
  else inl (str "no such file").

Definition cyc_Unmarshal (data : list Byte.byte) : list Z + XSDSchema.t :=
  match data with
  | [Byte.x61] => inr cyc_a
  | [Byte.x62] => inr cyc_b
  | _ => inl (str "EOF")
  end.

Definition cyc_world : World gostring :=
  {| Location_Parse := cyc_Parse;
     Location_String := id;
     fetchFile := cyc_fetchFile;
     xml_Unmarshal := cyc_Unmarshal |}.

(** ** The command: input checks and formatting *)

Abbreviation bytes := (list Byte.byte) (only parsing).

(** The value of an [error] is its message. *)
Abbreviation error := (list Z) (only parsing).

Section formatting.
(** [format.Source] of [go/format]. *)
Context (format_Source : bytes → error + bytes).

Definition format_warning (err : error) : gostring :=
  str "Errore nella formattazione del sorgente, scrittura del sorgente non formattato: "
  ++ err.

(** [formattaCodice] ([formatCode] in the English copy of the command):
    the parts are written to a buffer one after the other, the buffer is
    formatted; the bytes returned and the lines logged. *)
Definition formattaCodice (parts : list bytes) : bytes * list gostring :=
  let data := foldl (λ data part, data ++ part) [] parts in
  match format_Source data with
  | inl err => (data, [format_warning err])
  | inr codiceFormattato => (codiceFormattato, [])
  end.

End formatting.

(** The flags after [flag.Parse]. *)
Record Flags := mkFlags {
  vers : bool;
  pkg : gostring;
  outFile : gostring;
  dir : gostring;
  insecure : bool;
  makePublic_flag : bool
}.

Section command.
Context (uni : UnicodeTables).
(** [Location] and [ParseLocation] of the package, whose file is not among
    the sources: a file path or URL, parsed. *)
Context {Location : Type} (ParseLocation : gostring → error + Location).
Local Open Scope Z_scope.

(** [unicode.IsSpace] *)
Definition unicode_IsSpace (r : rune) : bool :=
  if decide (0 ≤ r ≤ MaxLatin1)
  then bool_decide (r ∈ [chr "009"; chr "010"; chr "011"; chr "012";
                         chr "013"; chr " "; 133; 160])
  else uni_IsSpace uni r.

Fixpoint trim_left (s : gostring) : gostring :=
  match s with
  | [] => []
  | r :: s' => if unicode_IsSpace r then trim_left s' else s
  end.

(** [strings.TrimSpace] *)
Definition strings_TrimSpace (s : gostring) : gostring :=
  reverse (trim_left (reverse (trim_left s))).

(** The fields of [GoWSDL] that [NewGoWSDL] sets. *)
Record GoWSDL := mkGoWSDL {
  g_loc : Location;
  g_pkg : gostring;
  g_ignoreTLS : bool;
  g_makePublicFn : gostring → gostring
}.

Definition NewGoWSDL (file pkg : gostring) (ignoreTLS exportAllTypes : bool)
  : error + GoWSDL :=
  let file := strings_TrimSpace file in
  if decide (file = []) then
    inl (str "WSDL file is required to generate Go proxy")
  else
    let pkg := strings_TrimSpace pkg in
    let pkg := if decide (pkg = []) then str "generated_from_wsdl" else pkg in
    let makePublicFn :=
      if exportAllTypes then makePublic uni else (λ id : gostring, id) in
    match ParseLocation file with
    | inl err => inl err
    | inr r => inr (mkGoWSDL r pkg ignoreTLS makePublicFn)
    end.

(** What the command does, as seen from outside. *)
Inductive Event :=
| Log (line : gostring)
| Usage
| Exit (code : Z)
| Fetch (loc : Location).

Definition is_fetch (e : Event) : bool :=
  match e with Fetch _ => true | _ => false end.

(** [Name] and [Version] are set when the command is built. *)
Context (Name Version : gostring).
(** What [Start] does after it has fetched the WSDL, and the writing of the
    files. *)
Context (generation : GoWSDL → list Event).

(** "Il file di output non può essere lo stesso del file WSDL" *)
Definition same_file_message : gostring :=
  str "Il file di output non pu" ++ [242] ++
  str " essere lo stesso del file WSDL".

(** [main], from [flag.Parse] on: [os.Args] and the parsed flags to the
    events of the run.  [log.Fatalln] logs and exits with status 1.
    [gowsdl.Start()] begins with [g.unmarshal()], whose first action is
    [g.fetchFile(g.loc)]. *)
Definition main (os_Args : list gostring) (flags : Flags) : list Event :=
  if vers flags then [Log (Name ++ str " " ++ Version); Exit 0]
  else if decide (length os_Args < 2)%nat then [Usage; Exit 1]
  else
    let wsdlPath := default [] (last os_Args) in
    if decide (outFile flags = wsdlPath)
    then [Log same_file_message; Exit 1]
    else
      match NewGoWSDL wsdlPath (pkg flags) (insecure flags)
              (makePublic_flag flags) with
      | inl err => [Log err; Exit 1]
      | inr gowsdl => Fetch (g_loc gowsdl) :: generation gowsdl
      end.

End command.

(** The invocation [gowsdl -p "" -o out.go svc.wsdl]. *)
Definition no_package_flags : Flags :=
  {| vers := false; pkg := []; outFile := str "out.go"; dir := str "./";
     insecure := false; makePublic_flag := true |}.

Definition no_package_args : list gostring :=
  [str "gowsdl"; str "-p"; []; str "-o"; str "out.go"; str "svc.wsdl"].

(** ** The other helpers of the templates *)

Module WSDLSOAPOperation.
(** Modelled from the spec: the struct behind [soapOp.SOAPOperation]; it
    carries the SOAP action string of an operation. *)
Record t := mk { SOAPAction : gostring }.
End WSDLSOAPOperation.

Module WSDLOperation.
(** Modelled from the spec: an operation of a binding, with its name and
    its SOAP operation. *)
Record t := mk { Name : gostring; SOAPOperation : WSDLSOAPOperation.t }.
End WSDLOperation.

Module WSDLBinding.
(** Modelled from the spec: the struct [WSDLBinding]; a binding refers to a
    port type (the Go field [Type]) and lists operations. *)
Record t := mk { Type_ : gostring; Operations : list WSDLOperation.t }.
End WSDLBinding.

Module WSDLSOAPAddress.
(** Modelled from the spec: the struct behind [port.SOAPAddress]; it
    carries the endpoint address. *)
Record t := mk { Location : gostring }.
End WSDLSOAPAddress.

Module WSDLPort.
(** Modelled from the spec: a port of a service, with its name and its
    address. *)
Record t := mk { Name : gostring; SOAPAddress : WSDLSOAPAddress.t }.
End WSDLPort.

Module WSDLService.
(** Modelled from the spec: the struct [WSDLService]; a service lists
    ports. *)
Record t := mk { Ports : list WSDLPort.t }.
End WSDLService.

Section helpers.
Context (uni : UnicodeTables).
Local Open Scope Z_scope.

(** [removeNS] *)
Definition removeNS (xsdType : gostring) : gostring :=
  match strings_Split (chr ":") xsdType with
  | [_; t] => t
  | t :: _ => t
  | [] => []
  end.

(** [goString]: every double quote (34) becomes a backslash (92) and a
    double quote. *)
Definition goString (s : gostring) : gostring :=
  strings_ReplaceAll s 34 [92; 34].

(** The class [\s] of Go's [regexp]: tab, line feed, form feed, carriage
    return, space. *)
Definition re_space (r : rune) : bool :=
  bool_decide (r ∈ [9; 10; 12; 13; 32]).

Fixpoint skip_re_space (s : gostring) : gostring :=
  match s with
  | [] => []
  | r :: s' => if re_space r then skip_re_space s' else s
  end.

(** [removePointerFromType]: the pattern [^\s*\*] matches at the start of
    the text only, the white space it takes is followed by a star; the
    match is replaced by nothing. *)
Definition removePointerFromType (goType : gostring) : gostring :=
  match skip_re_space goType with
  | r :: rest => if decide (r = chr "*") then rest else goType
  | [] => goType
  end.

(** [strings.ToUpper]; on an ASCII string the byte loop of the library and
    this mapping agree. *)
Definition strings_ToUpper (s : gostring) : gostring :=
  strings_Map (unicode_ToUpper uni) s.

(** The loop of [findSOAPAction] over the operations of one binding. *)
Fixpoint findSOAPAction_operations (operation : gostring)
  (ops : list WSDLOperation.t) : option gostring :=
  match ops with
  | [] => None
  | soapOp :: rest =>
      if decide (WSDLOperation.Name soapOp = operation)
      then Some (WSDLSOAPOperation.SOAPAction
                   (WSDLOperation.SOAPOperation soapOp))
      else findSOAPAction_operations operation rest
  end.

(** The loop of [findSOAPAction] over [g.wsdl.Binding]; [None] when it
    ends without a [return]. *)
Fixpoint findSOAPAction_bindings (operation portType : gostring)
  (bindings : list WSDLBinding.t) : option gostring :=
  match bindings with
  | [] => None
  | binding :: rest =>
      if decide (strings_ToUpper (stripns (WSDLBinding.Type_ binding))
                 ≠ strings_ToUpper portType)
      then findSOAPAction_bindings operation portType rest
      else
        match findSOAPAction_operations operation
                (WSDLBinding.Operations binding) with
        | Some action => Some action
        | None => findSOAPAction_bindings operation portType rest
        end
  end.

(** [findSOAPAction], on the bindings [g.wsdl.Binding]. *)
Definition findSOAPAction (bindings : list WSDLBinding.t)
  (operation portType : gostring) : gostring :=
  default [] (findSOAPAction_bindings operation portType bindings).

(** The loop of [findServiceAddress] over the ports of one service. *)
Fixpoint findServiceAddress_ports (name : gostring) (ports : list WSDLPort.t)
  : option gostring :=
  match ports with
  | [] => None
  | port :: rest =>
      if decide (WSDLPort.Name port = name)
      then Some (WSDLSOAPAddress.Location (WSDLPort.SOAPAddress port))
      else findServiceAddress_ports name rest
  end.

(** The loop of [findServiceAddress] over [g.wsdl.Service]. *)
Fixpoint findServiceAddress_services (name : gostring)
  (services : list WSDLService.t) : option gostring :=
  match services with
  | [] => None
  | service :: rest =>
      match findServiceAddress_ports name (WSDLService.Ports service) with
      | Some location => Some location
      | None => findServiceAddress_services name rest
      end
  end.

(** [findServiceAddress], on the services [g.wsdl.Service]. *)
Definition findServiceAddress (services : list WSDLService.t)
  (name : gostring) : gostring :=
  default [] (findServiceAddress_services name services).

(** ["\n// "] *)
Definition comment_lead : gostring := [10; 47; 47; 32].

(** The loop of [comment]: the output so far and [hasComment]. *)
Definition comment_step (acc : gostring * bool) (line : gostring)
  : gostring * bool :=
  let line := trim_left uni line in
  (acc.1 ++ comment_lead ++ line, acc.2 || bool_decide (line ≠ [])).

(** [comment] *)
Definition comment (text : gostring) : gostring :=
  let lines := strings_Split 10 text in
  if decide (length lines = 1%nat ∧ lines !! 0%nat = Some []) then []
  else
    let '(output, hasComment) := foldl comment_step ([], false) lines in
    if hasComment then output else [].

End helpers.

(** An identifier that is empty or starts with an ASCII character. *)
Definition ascii_head (identifier : gostring) : Prop :=
  ∀ r, head identifier = Some r → (0 ≤ r ≤ MaxASCII)%Z.

(** The SOAP actions of the operations called [operation] in the bindings
    whose port type is [portType] up to case, in the order of the
    document. *)
Definition matching_actions (uni : UnicodeTables)
  (bindings : list WSDLBinding.t) (operation portType : gostring)
  : list gostring :=
  bindings ≫= λ binding,
    if decide (strings_ToUpper uni (stripns (WSDLBinding.Type_ binding))
               = strings_ToUpper uni portType)
    then (λ soapOp, WSDLSOAPOperation.SOAPAction
                      (WSDLOperation.SOAPOperation soapOp))
         <$> filter (λ soapOp, WSDLOperation.Name soapOp = operation)
               (WSDLBinding.Operations binding)
    else [].

(** The addresses of the ports called [name], in the order of the
    document. *)
Definition matching_addresses (services : list WSDLService.t)
  (name : gostring) : list gostring :=
  (λ port, WSDLSOAPAddress.Location (WSDLPort.SOAPAddress port))
  <$> filter (λ port, WSDLPort.Name port = name)
        (services ≫= WSDLService.Ports).

(** The log lines for the declarations whose name changed, in order: the
    kind, the old name, the new name and the namespace of each. *)
Definition renamed_log (decls : list (gostring * gostring * gostring))
  (renamed : list gostring) : list gostring :=
  omap (λ du : gostring * gostring * gostring * gostring,
          if decide (du.2 ≠ du.1.2)
          then Some (collision_log du.1.1.1 du.1.2 du.2 du.1.1.2)
          else None)
    (zip decls renamed).

(** A collection without collision. *)
Definition distinct_items : list XSDSchema.t :=
  [ XSDSchema.mk (str "urn:a") [] [] []
      [XSDComplexType.mk (str "Item")] [XSDSimpleType.mk (str "Code")];
    XSDSchema.mk (str "urn:b") [] [] []
      [XSDComplexType.mk (str "Order")] [] ].

Section fetch_order.
Context {Location : Type} (w : World Location).

(** The fetch of [l], the one at position [i] of the fetches [new], has a
    reason: one of the references [srcs] (each with the location it is read
    at) is [l], or a reference of the schema found at a location fetched
    before is [l]. *)
Definition fetch_justified (srcs : list (Location * gostring))
  (new : list Location) (i : nat) (l : Location) : Prop :=
  (∃ base ref, (base, ref) ∈ srcs ∧ Location_Parse w base ref = inr l) ∨
  (∃ j l0 schema ref,
     j < i ∧ new !! j = Some l0 ∧ schema_at w l0 = Some schema ∧
     ref ∈ external_refs schema ∧ Location_Parse w l0 ref = inr l).

Definition fetches_justified (srcs : list (Location * gostring))
  (new : list Location) : Prop :=
  ∀ i l, new !! i = Some l → fetch_justified srcs new i l.

(** What holds of the fetches of a call started in [g]. *)
Definition justified_post (srcs : list (Location * gostring))
  (g : Resolver) (o : Outcome) : Prop :=
  match o with
  | Done g' | Failed _ g' =>
      ∃ new, fetched g' = fetched g ++ new ∧ fetches_justified srcs new
  | OutOfFuel => True
  end.

(** The references of the schemas embedded in the WSDL at [loc]. *)
Definition root_refs (roots : list XSDSchema.t) (loc : Location)
  : list (Location * gostring) :=
  roots ≫= λ root, (λ ref, (loc, ref)) <$> external_refs root.

End fetch_order.

(** A decidable property of a literal table or list, settled by
    evaluation. *)
Ltac decide_table := cbv beta; apply (bool_decide_unpack _); by vm_compute.

(** * Properties *)

(** ** Collision resolution *)

Section collision_facts.
Local Open Scope Z_scope.

Lemma int_wrap_id z : - 2 ^ 63 ≤ z < 2 ^ 63 → int_wrap z = z.
Proof.
  intros Hz. unfold int_wrap.
  rewrite Z.mod_small by lia. lia.
Qed.

Lemma occurrences_nil n : occurrences n [] = 0.
Proof. reflexivity. Qed.

Lemma occurrences_cons n x l :
  occurrences n (x :: l) = (if decide (n = x) then 1 else 0) + occurrences n l.
Proof.
  unfold occurrences. rewrite filter_cons.
  destruct (decide (n = x)); simpl; lia.
Qed.

Lemma occurrences_app n l1 l2 :
  occurrences n (l1 ++ l2) = occurrences n l1 + occurrences n l2.
Proof.
  unfold occurrences. rewrite filter_app, length_app. lia.
Qed.

Lemma occurrences_nonneg n l : 0 ≤ occurrences n l.
Proof. unfold occurrences. lia. Qed.

Lemma occurrences_le_length n l : occurrences n l ≤ Z.of_nat (length l).
Proof.
  unfold occurrences. pose proof (length_filter (n =.) l). lia.
Qed.

Lemma seen_get_incr m x n :
  seen_get (seen_incr m x) n =
  if decide (x = n) then int_wrap (seen_get m x + 1) else seen_get m n.
Proof.
  unfold seen_incr, seen_get at 1.
  rewrite lookup_insert. destruct (decide (x = n)); reflexivity.
Qed.

(** The counting loop computes the number of occurrences; the counters
    cannot wrap because they are bounded by the number of declarations. *)
Lemma seen_get_count l : ∀ m n,
  (∀ k, 0 ≤ seen_get m k) →
  (∀ k, seen_get m k + Z.of_nat (length l) < 2 ^ 63) →
  seen_get (foldl seen_incr m l) n = seen_get m n + occurrences n l.
Proof.
  induction l as [|x l IH]; intros m n Hpos Hbound; simpl.
  - rewrite occurrences_nil. lia.
  - assert (Hx : int_wrap (seen_get m x + 1) = seen_get m x + 1).
    { apply int_wrap_id. specialize (Hpos x). specialize (Hbound x).
      simpl in Hbound. lia. }
    rewrite IH.
    + rewrite seen_get_incr, occurrences_cons, Hx.
      destruct (decide (x = n)), (decide (n = x)); subst; try congruence; lia.
    + intros k. rewrite seen_get_incr, Hx.
      destruct (decide (x = k)); subst; specialize (Hpos k); lia.
    + intros k. rewrite seen_get_incr, Hx.
      pose proof (Hbound k) as Hbk. pose proof (Hbound x) as Hbx.
      simpl in Hbk, Hbx. destruct (decide (x = k)); subst; lia.
Qed.

Lemma count_schema_flat m schema :
  count_schema m schema = foldl seen_incr m (decl_names schema).
Proof. unfold count_schema, decl_names. by rewrite foldl_app. Qed.

Lemma count_names_flat schemas : ∀ m,
  foldl count_schema m schemas = foldl seen_incr m (all_decl_names schemas).
Proof.
  induction schemas as [|s ss IH]; intros m; [reflexivity|].
  unfold all_decl_names. simpl. rewrite foldl_app, IH.
  by rewrite count_schema_flat.
Qed.

Lemma seen_get_count_names schemas n :
  Z.of_nat (length (all_decl_names schemas)) < 2 ^ 63 →
  seen_get (count_names schemas) n = occurrences n (all_decl_names schemas).
Proof.
  intros Hlen. unfold count_names. rewrite count_names_flat.
  rewrite seen_get_count; [reflexivity| |]; intros k; unfold seen_get;
    rewrite lookup_empty; simpl; lia.
Qed.

Lemma seen_get_drop_unique m n :
  seen_get (drop_unique m) n =
  if decide (2 ≤ seen_get m n) then seen_get m n else 0.
Proof.
  unfold drop_unique, seen_get.
  destruct (m !! n) as [v|] eqn:Hm; simpl.
  - destruct (decide (2 ≤ v)).
    + erewrite (proj2 (map_lookup_filter_Some _ m n v)); [reflexivity|].
      split; [done|]. simpl. lia.
    + rewrite (proj2 (map_lookup_filter_None _ m n)); [reflexivity|].
      right. intros v' Hv'. simpl. rewrite Hm in Hv'. inversion Hv'; subst. lia.
  - rewrite (proj2 (map_lookup_filter_None _ m n)); [|by left].
    simpl. destruct (decide (2 ≤ 0)); lia.
Qed.

End collision_facts.

Section rename_facts.
Local Open Scope Z_scope.

Lemma rename_decl_step kind ns st names done n rest :
  names = done ++ n :: rest →
  Z.of_nat (length names) < 2 ^ 63 →
  seen_inv names done st →
  (rename_decl kind ns st n).1 = spec_new_name names (length done) n ∧
  seen_inv names (done ++ [n]) (rename_decl kind ns st n).2 ∧
  resolveCollisions (rename_decl kind ns st n).2 =
    (if decide (2 ≤ occurrences n names)
     then <[collision_key ns n := spec_new_name names (length done) n]>
            (resolveCollisions st)
     else resolveCollisions st).
Proof.
  intros Hnames Hlen Hinv.
  assert (Htake : take (length done) names = done).
  { subst names. by rewrite take_app_length. }
  assert (Hocc : occurrences n names =
                 occurrences n done + 1 + occurrences n rest).
  { subst names. rewrite occurrences_app, occurrences_cons.
    destruct (decide (n = n)); [lia|congruence]. }
  pose proof (occurrences_nonneg n done) as Hd.
  pose proof (occurrences_nonneg n rest) as Hr.
  pose proof (occurrences_le_length n names) as Hle.
  unfold rename_decl, spec_new_name. rewrite Htake, (Hinv n).
  destruct (decide (2 ≤ occurrences n names)) as [Hcol|Hcol].
  - destruct (decide (0 < occurrences n names - occurrences n done));
      [|lia]. simpl.
    split; [reflexivity|]. split; [|reflexivity].
    intros n'. unfold seen_get. cbn [seen]. rewrite lookup_insert.
    destruct (decide (n = n')) as [<-|Hne]; simpl.
    + destruct (decide (2 ≤ occurrences n names)); [|lia].
      rewrite int_wrap_id by lia.
      rewrite occurrences_app, occurrences_cons, occurrences_nil.
      destruct (decide (n = n)); [lia|congruence].
    + fold (seen_get (seen st) n'). rewrite (Hinv n').
      rewrite occurrences_app, occurrences_cons, occurrences_nil.
      destruct (decide (n' = n)); [congruence|].
      destruct (decide (2 ≤ occurrences n' names)); lia.
  - destruct (decide (0 < 0)); [lia|]. simpl.
    split; [reflexivity|]. split; [|reflexivity].
    intros n'. rewrite (Hinv n').
    rewrite occurrences_app, occurrences_cons, occurrences_nil.
    destruct (decide (n' = n)) as [->|Hne].
    + destruct (decide (2 ≤ occurrences n names)); lia.
    + destruct (decide (2 ≤ occurrences n' names)); lia.
Qed.

Lemma rename_flat_app l1 : ∀ st l2,
  rename_flat st (l1 ++ l2) =
  ((rename_flat st l1).1 ++ (rename_flat (rename_flat st l1).2 l2).1,
   (rename_flat (rename_flat st l1).2 l2).2).
Proof.
  induction l1 as [|[[kind ns] n] l1 IH]; intros st l2; simpl.
  - by destruct (rename_flat st l2).
  - destruct (rename_decl kind ns st n) as [u st1]. rewrite IH.
    destruct (rename_flat st1 l1) as [us st2]. simpl.
    by destruct (rename_flat st2 l2).
Qed.

Lemma rename_flat_length l : ∀ st,
  length (rename_flat st l).1 = length l.
Proof.
  induction l as [|[[kind ns] n] l IH]; intros st; simpl; [reflexivity|].
  destruct (rename_decl kind ns st n) as [u st1]. specialize (IH st1).
  destruct (rename_flat st1 l). simpl in *. by rewrite IH.
Qed.

Lemma rename_complex_flat ns l : ∀ st,
  (XSDComplexType.Name <$> (rename_complex ns st l).1,
   (rename_complex ns st l).2) =
  rename_flat st
    ((λ ct, (str "ComplexType", ns, XSDComplexType.Name ct)) <$> l).
Proof.
  induction l as [|ct l IH]; intros st; simpl; [reflexivity|].
  destruct (rename_decl _ ns st _) as [u st1].
  rewrite <- IH. by destruct (rename_complex ns st1 l).
Qed.

Lemma rename_simple_flat ns l : ∀ st,
  (XSDSimpleType.Name <$> (rename_simple ns st l).1,
   (rename_simple ns st l).2) =
  rename_flat st
    ((λ t, (str "SimpleType", ns, XSDSimpleType.Name t)) <$> l).
Proof.
  induction l as [|t l IH]; intros st; simpl; [reflexivity|].
  destruct (rename_decl _ ns st _) as [u st1].
  rewrite <- IH. by destruct (rename_simple ns st1 l).
Qed.

Lemma kinded_decls_cons s ss :
  kinded_decls (s :: ss) =
  (((λ ct, (str "ComplexType", XSDSchema.TargetNamespace s,
            XSDComplexType.Name ct)) <$> XSDSchema.ComplexTypes s) ++
   ((λ t, (str "SimpleType", XSDSchema.TargetNamespace s,
           XSDSimpleType.Name t)) <$> XSDSchema.SimpleType s)) ++
  kinded_decls ss.
Proof. reflexivity. Qed.

Lemma all_decl_names_cons s ss :
  all_decl_names (s :: ss) = decl_names s ++ all_decl_names ss.
Proof. reflexivity. Qed.

(** The nested loops over schemas and their type lists visit the
    declarations in the flat traversal order. *)
Lemma rename_schemas_flat schemas : ∀ st,
  (all_decl_names (rename_schemas st schemas).1,
   (rename_schemas st schemas).2) =
  rename_flat st (kinded_decls schemas).
Proof.
  induction schemas as [|s ss IH]; intros st; [reflexivity|].
  rewrite kinded_decls_cons, !rename_flat_app.
  cbn [rename_schemas]. unfold rename_schema.
  pose proof (rename_complex_flat (XSDSchema.TargetNamespace s)
                (XSDSchema.ComplexTypes s) st) as Hc.
  destruct (rename_complex _ st _) as [cts st1].
  rewrite <- Hc. cbn [fst snd].
  pose proof (rename_simple_flat (XSDSchema.TargetNamespace s)
                (XSDSchema.SimpleType s) st1) as Hs.
  destruct (rename_simple _ st1 _) as [sts st2].
  rewrite <- Hs. cbn [fst snd].
  rewrite <- (IH st2).
  destruct (rename_schemas st2 ss) as [ss' st3]. cbn [fst snd].
  rewrite all_decl_names_cons. unfold decl_names. cbn.
  by rewrite <- app_assoc.
Qed.

End rename_facts.

Section rename_run.

Lemma entries_from_cons names k d l :
  entries_from names k (d :: l) =
  (if decide (2 ≤ occurrences d.2 names)%Z
   then [(collision_key d.1.2 d.2, spec_new_name names k d.2)] else []) ++
  entries_from names (S k) l.
Proof.
  unfold entries_from. rewrite imap_cons. cbn [omap].
  rewrite Nat.add_0_r.
  replace (imap _ l) with
    (imap (λ i (d0 : gostring * gostring * gostring),
       if decide (2 ≤ occurrences d0.2 names)%Z
       then Some (collision_key d0.1.2 d0.2,
                  spec_new_name names (S k + i) d0.2)
       else None) l).
  - destruct (decide (2 ≤ occurrences d.2 names)%Z); reflexivity.
  - apply imap_ext. intros i x _. simpl. by rewrite Nat.add_succ_r.
Qed.

Lemma rename_flat_spec names : ∀ l done st,
  names = done ++ l.*2 →
  (Z.of_nat (length names) < 2 ^ 63)%Z →
  seen_inv names done st →
  (rename_flat st l).1 =
    imap (λ i, spec_new_name names (length done + i)) l.*2 ∧
  resolveCollisions (rename_flat st l).2 =
    foldl write_entry (resolveCollisions st)
      (entries_from names (length done) l) ∧
  seen_inv names names (rename_flat st l).2.
Proof.
  induction l as [|[[kind ns] n] l IH]; intros done st Hnames Hlen Hinv.
  - simpl in *. rewrite app_nil_r in Hnames. subst done. done.
  - cbn [fmap list_fmap snd] in Hnames.
    destruct (rename_decl_step kind ns st names done n (l.*2) Hnames Hlen Hinv)
      as (Hname & Hinv' & Hmap).
    cbn [rename_flat].
    destruct (rename_decl kind ns st n) as [u st1]. cbn [fst snd] in *.
    destruct (IH (done ++ [n]) st1) as (IH1 & IH2 & IH3);
      [by rewrite <- app_assoc|done|done|].
    destruct (rename_flat st1 l) as [us st2]. cbn [fst snd] in *.
    split; [|split; [|done]].
    + cbn [fmap list_fmap snd]. rewrite imap_cons, Nat.add_0_r, Hname, IH1.
      f_equal. apply imap_ext. intros i x _. simpl.
      rewrite length_app. simpl. f_equal. lia.
    + rewrite IH2, Hmap, entries_from_cons. cbn [fst snd].
      rewrite length_app, Nat.add_1_r.
      destruct (decide (2 ≤ occurrences n names)%Z); reflexivity.
Qed.

Lemma foldl_write_entry l :
  foldl write_entry ∅ l = list_to_map (reverse l).
Proof.
  induction l as [|e l IH] using rev_ind; [reflexivity|].
  rewrite foldl_app, reverse_app. simpl. by rewrite IH.
Qed.

Lemma kinded_decls_names schemas :
  (kinded_decls schemas).*2 = all_decl_names schemas.
Proof.
  induction schemas as [|s ss IH]; [reflexivity|].
  rewrite kinded_decls_cons, all_decl_names_cons, !fmap_app, IH.
  unfold decl_names. by rewrite <- !list_fmap_compose.
Qed.

Lemma kinded_decls_all schemas :
  (λ d : gostring * gostring * gostring, (d.1.2, d.2)) <$> kinded_decls schemas
  = all_decls schemas.
Proof.
  induction schemas as [|s ss IH]; [reflexivity|].
  rewrite kinded_decls_cons, !fmap_app, IH.
  unfold all_decls at 2. cbn [mbind list_bind]. fold (all_decls ss).
  unfold decl_names. rewrite fmap_app, <- !list_fmap_compose.
  reflexivity.
Qed.

Lemma all_decls_names schemas :
  (all_decls schemas).*2 = all_decl_names schemas.
Proof.
  rewrite <- kinded_decls_all, <- kinded_decls_names.
  by rewrite <- list_fmap_compose.
Qed.

Lemma entries_from_spec schemas :
  entries_from (all_decl_names schemas) 0 (kinded_decls schemas) =
  spec_entries (all_decls schemas).
Proof.
  unfold entries_from, spec_entries.
  rewrite all_decls_names, <- kinded_decls_all, imap_fmap. reflexivity.
Qed.

Lemma rename_schemas_frame schemas : ∀ st,
  Forall2 same_frame schemas (rename_schemas st schemas).1.
Proof.
  induction schemas as [|s ss IH]; intros st; [constructor|].
  cbn [rename_schemas]. unfold rename_schema.
  pose proof (rename_complex_flat (XSDSchema.TargetNamespace s)
                (XSDSchema.ComplexTypes s) st) as Hc.
  destruct (rename_complex _ st _) as [cts st1].
  pose proof (rename_simple_flat (XSDSchema.TargetNamespace s)
                (XSDSchema.SimpleType s) st1) as Hs.
  destruct (rename_simple _ st1 _) as [sts st2].
  specialize (IH st2). destruct (rename_schemas st2 ss) as [ss' st3].
  cbn [fst snd] in *. constructor; [|done].
  repeat split; cbn.
  - apply (f_equal (λ p, length p.1)) in Hc. cbn in Hc.
    rewrite rename_flat_length, !length_fmap in Hc. done.
  - apply (f_equal (λ p, length p.1)) in Hs. cbn in Hs.
    rewrite rename_flat_length, !length_fmap in Hs. done.
Qed.

End rename_run.

Section collision_theorem.

Lemma rune_of_ascii_inj (a b : ascii) :
  Z.of_N (N_of_ascii a) = Z.of_N (N_of_ascii b) → a = b.
Proof.
  intros Hab. apply N2Z.inj in Hab.
  rewrite <- (ascii_N_embedding a), <- (ascii_N_embedding b).
  by rewrite Hab.
Qed.

Lemma str_inj s1 s2 : str s1 = str s2 → s1 = s2.
Proof.
  unfold str. intros H.
  assert (Hl : list_ascii_of_string s1 = list_ascii_of_string s2).
  { revert H. generalize (list_ascii_of_string s1), (list_ascii_of_string s2).
    induction l as [|a l IH]; intros [|b l'] H; try discriminate; [done|].
    cbn in H. injection H as Hab Hl.
    f_equal; [by apply rune_of_ascii_inj|by apply IH]. }
  rewrite <- (string_of_list_ascii_of_string s1),
          <- (string_of_list_ascii_of_string s2). by rewrite Hl.
Qed.

Lemma fmt_d_inj z1 z2 : fmt_d z1 = fmt_d z2 → z1 = z2.
Proof. intros H. apply str_inj in H. by apply (inj pretty) in H. Qed.

Lemma occurrences_take_le n (l : list gostring) a b :
  a ≤ b → (occurrences n (take a l) ≤ occurrences n (take b l))%Z.
Proof.
  intros Hab.
  rewrite <- (take_drop a (take b l)), take_take, Nat.min_l by done.
  rewrite occurrences_app. pose proof (occurrences_nonneg n (drop a (take b l))).
  lia.
Qed.

Lemma occurrences_take_lt n (l : list gostring) i j :
  i < j → l !! i = Some n →
  (occurrences n (take i l) < occurrences n (take j l))%Z.
Proof.
  intros Hij Hi.
  pose proof (occurrences_take_le n l (S i) j Hij) as Hle.
  rewrite (take_S_r l i n Hi), occurrences_app, occurrences_cons,
    occurrences_nil in Hle.
  destruct (decide (n = n)); [lia|congruence].
Qed.

Lemma occurrences_lookup n (l : list gostring) i :
  l !! i = Some n → (1 ≤ occurrences n l)%Z.
Proof.
  intros Hi. rewrite <- (take_drop_middle l i n Hi).
  rewrite occurrences_app, occurrences_cons.
  pose proof (occurrences_nonneg n (take i l)).
  pose proof (occurrences_nonneg n (drop (S i) l)).
  destruct (decide (n = n)); [lia|congruence].
Qed.

Lemma seen_inv_start schemas :
  (Z.of_nat (length (all_decl_names schemas)) < 2 ^ 63)%Z →
  seen_inv (all_decl_names schemas) []
    {| seen := drop_unique (count_names schemas);
       resolveCollisions := ∅; logged := [] |}.
Proof.
  intros Hlen n. cbn [seen].
  rewrite seen_get_drop_unique, seen_get_count_names by done.
  rewrite occurrences_nil.
  destruct (decide (2 ≤ occurrences n (all_decl_names schemas))%Z); lia.
Qed.

(** One execution of the loop body on a name whose counter is positive. *)
Lemma rename_decl_records kind ns st name :
  (0 < seen_get (seen st) name)%Z →
  (rename_decl kind ns st name).1 = name ++ fmt_d (seen_get (seen st) name) ∧
  resolveCollisions (rename_decl kind ns st name).2 !! collision_key ns name
    = Some (name ++ fmt_d (seen_get (seen st) name)) ∧
  seen_get (seen (rename_decl kind ns st name).2) name
    = int_wrap (seen_get (seen st) name - 1).
Proof.
  intros Hpos. unfold rename_decl.
  destruct (decide (0 < seen_get (seen st) name)%Z); [|done].
  cbn. split; [done|]. split.
  - by rewrite lookup_insert_eq.
  - unfold seen_get at 1. by rewrite lookup_insert_eq.
Qed.

(** One execution of the loop body on a name whose counter is zero. *)
Lemma rename_decl_skips kind ns st name :
  ¬ (0 < seen_get (seen st) name)%Z →
  rename_decl kind ns st name = (name, st).
Proof.
  intros Hpos. unfold rename_decl.
  by destruct (decide (0 < seen_get (seen st) name)%Z).
Qed.

(** C1. The collision-resolution step of [Start] renames as the design
    document describes.  With [names] the type names of the collection in
    schema-traversal order: the schemas keep everything but the type names;
    the declaration at position [i] whose name [n] occurs at least twice is
    renamed to [n] followed by the remaining occurrence count (the total
    minus the occurrences before [i]); two occurrences of one name never get
    the same new name; a name occurring once is left as it is; each renaming
    step writes [namespace/original -> new name] to the collision map and
    decrements the counter of the name; the collision map at the end holds,
    under each key, the last entry written for it, so every renamed
    declaration has its key bound; all counters end at zero. *)
Theorem collision_renaming_algorithm schemas :
  (Z.of_nat (length (all_decl_names schemas)) < 2 ^ 63)%Z →
  let names := all_decl_names schemas in
  let result := resolve_collisions schemas in
  let renamed := all_decl_names result.1 in
  Forall2 same_frame schemas result.1 ∧
  renamed = spec_renamed names ∧
  (∀ i n, names !! i = Some n → (2 ≤ occurrences n names)%Z →
     renamed !! i =
       Some (n ++ fmt_d (occurrences n names - occurrences n (take i names)))) ∧
  (∀ i j n, i ≠ j → names !! i = Some n → names !! j = Some n →
     renamed !! i ≠ renamed !! j) ∧
  (∀ i n, names !! i = Some n → occurrences n names = 1%Z →
     renamed !! i = Some n) ∧
  (∀ kind ns st name, (0 < seen_get (seen st) name)%Z →
     (rename_decl kind ns st name).1 = name ++ fmt_d (seen_get (seen st) name) ∧
     resolveCollisions (rename_decl kind ns st name).2 !! collision_key ns name
       = Some (name ++ fmt_d (seen_get (seen st) name)) ∧
     seen_get (seen (rename_decl kind ns st name).2) name
       = int_wrap (seen_get (seen st) name - 1)) ∧
  resolveCollisions result.2 = spec_collision_map (all_decls schemas) ∧
  (∀ i ns n, all_decls schemas !! i = Some (ns, n) →
     (2 ≤ occurrences n names)%Z →
     is_Some (resolveCollisions result.2 !! collision_key ns n)) ∧
  (∀ n, seen_get (seen result.2) n = 0%Z).
Proof.
  intros Hlen names result renamed.
  pose proof (rename_schemas_flat schemas
    {| seen := drop_unique (count_names schemas);
       resolveCollisions := ∅; logged := [] |}) as Hflat.
  fold (resolve_collisions schemas) in Hflat. fold result in Hflat.
  fold renamed in Hflat.
  destruct (rename_flat_spec names (kinded_decls schemas) []
              {| seen := drop_unique (count_names schemas);
                 resolveCollisions := ∅; logged := [] |})
    as (Hnames & Hmap & Hinv).
  { by rewrite kinded_decls_names. }
  { done. }
  { by apply seen_inv_start. }
  rewrite <- Hflat in Hnames, Hmap, Hinv. cbn [fst snd] in Hnames, Hmap, Hinv.
  rewrite kinded_decls_names in Hnames. cbn [length Nat.add] in Hnames, Hmap.
  assert (Hren : renamed = spec_renamed names) by exact Hnames.
  assert (Hlook : ∀ i n, names !! i = Some n →
            renamed !! i = Some (spec_new_name names i n)).
  { intros i n Hi. rewrite Hren. unfold spec_renamed.
    by rewrite list_lookup_imap, Hi. }
  assert (Hfinal : resolveCollisions result.2 =
                   spec_collision_map (all_decls schemas)).
  { rewrite Hmap. cbn [resolveCollisions]. rewrite foldl_write_entry.
    unfold spec_collision_map, names. by rewrite entries_from_spec. }
  split; [apply rename_schemas_frame|].
  split; [done|].
  split.
  { intros i n Hi Hcol. rewrite (Hlook i n Hi). unfold spec_new_name.
    by destruct (decide (2 ≤ occurrences n names)%Z). }
  split.
  { assert (Hlt : ∀ i j n, i < j → names !! i = Some n → names !! j = Some n →
              renamed !! i ≠ renamed !! j).
    { intros i j n Hij Hi Hj. rewrite (Hlook i n Hi), (Hlook j n Hj).
      unfold spec_new_name.
      pose proof (occurrences_take_lt n names i j Hij Hi) as Hk.
      pose proof (occurrences_take_le n names (S j) (length names)) as Hk'.
      rewrite (take_S_r names j n Hj), occurrences_app, occurrences_cons,
        occurrences_nil, firstn_all in Hk'.
      apply lookup_lt_Some in Hj.
      destruct (decide (n = n)); [|congruence].
      pose proof (occurrences_nonneg n (take i names)).
      destruct (decide (2 ≤ occurrences n names)%Z); [|lia].
      intros [= Heq]. apply app_inv_head in Heq. apply fmt_d_inj in Heq. lia. }
    intros i j n Hij Hi Hj.
    destruct (decide (i < j)) as [Hl|Hl]; [by eapply Hlt|].
    intros Heq. symmetry in Heq. revert Heq. eapply Hlt; [|done..]. lia. }
  split.
  { intros i n Hi Hone. rewrite (Hlook i n Hi). unfold spec_new_name.
    destruct (decide (2 ≤ occurrences n names)%Z); [lia|done]. }
  split; [apply rename_decl_records|].
  split; [done|].
  split.
  { intros i ns n Hi Hcol. rewrite Hfinal. unfold spec_collision_map.
    apply not_eq_None_Some. intros Hnone.
    apply not_elem_of_list_to_map in Hnone. apply Hnone.
    rewrite fmap_reverse, elem_of_reverse.
    apply list_elem_of_fmap.
    exists (collision_key ns n,
            spec_new_name (all_decls schemas).*2 i n).
    split; [done|]. unfold spec_entries.
    apply list_elem_of_omap.
    eexists. split.
    - apply elem_of_lookup_imap. exists i, (ns, n). split; [reflexivity|done].
    - cbn. rewrite all_decls_names. fold names.
      by destruct (decide (2 ≤ occurrences n names)%Z). }
  intros n. rewrite (Hinv n).
  destruct (decide (2 ≤ occurrences n names)%Z); lia.
Qed.

(** The theorem at the collection [two_items]. *)
Lemma collision_renaming_algorithm_witness :
  (Z.of_nat (length (all_decl_names two_items)) < 2 ^ 63)%Z ∧
  all_decl_names (resolve_collisions two_items).1 =
    spec_renamed (all_decl_names two_items).
Proof.
  split; [reflexivity|].
  apply (collision_renaming_algorithm two_items). reflexivity.
Defined.

End collision_theorem.

(** ** Type and identifier mapping *)

Section mapper_facts.
Context (uni : UnicodeTables).
Local Open Scope Z_scope.

Lemma table_lookup_Some l k v :
  table l !! k = Some v → (k, v) ∈ (λ kv, (str kv.1, str kv.2)) <$> l.
Proof. unfold table. apply elem_of_list_to_map_2. Qed.

Lemma table_lookup_None l k :
  table l !! k = None ↔ k ∉ (λ kv : string * string, str kv.1) <$> l.
Proof.
  unfold table. rewrite <- not_elem_of_list_to_map.
  by rewrite <- list_fmap_compose.
Qed.

Lemma table_Forall (P : gostring → gostring → Prop) l :
  Forall (λ kv : string * string, P (str kv.1) (str kv.2)) l →
  ∀ k v, table l !! k = Some v → P k v.
Proof.
  intros HP k v H. apply table_lookup_Some in H.
  apply list_elem_of_fmap in H as (kv & Heq & Hin).
  rewrite Forall_forall in HP. specialize (HP kv Hin).
  by inversion Heq; subst.
Qed.

Lemma reservedWords_keys k :
  reservedWords !! k = None ↔ k ∉ go_keywords.
Proof. unfold reservedWords. by rewrite table_lookup_None. Qed.

Lemma reservedWords_value k v :
  reservedWords !! k = Some v → v = k ++ str "_".
Proof.
  revert k v. apply (table_Forall (λ k v, v = k ++ str "_")).
  decide_table.
Qed.

Lemma xsd2GoTypes_values k v :
  xsd2GoTypes !! k = Some v → v ≠ [] ∧ is_pointer v = false.
Proof.
  revert k v. apply (table_Forall (λ k v, v ≠ [] ∧ is_pointer v = false)).
  decide_table.
Qed.

Lemma basicTypes_keys k :
  isBasicType k = true ↔ k ∈ basic_spellings.
Proof.
  unfold isBasicType. rewrite bool_decide_eq_true.
  rewrite <- not_eq_None_Some. unfold basicTypes.
  rewrite table_lookup_None. split; [apply dec_stable|auto].
Qed.

Lemma strings_ReplaceAll_absent s old new :
  old ∉ s → strings_ReplaceAll s old new = s.
Proof.
  induction s as [|r s IH]; intros Hnot; [reflexivity|].
  apply not_elem_of_cons in Hnot as [Hne Hnot].
  unfold strings_ReplaceAll in *. cbn.
  destruct (decide (r = old)); [congruence|]. cbn. by rewrite IH.
Qed.

Lemma strings_Map_fixed mapping s :
  Forall (λ r, mapping r = r ∧ 0 ≤ r) s → strings_Map mapping s = s.
Proof.
  induction 1 as [|r s [Hr Hpos] _ IH]; [reflexivity|].
  unfold strings_Map in *. cbn. rewrite Hr.
  destruct (decide (r < 0)); [lia|]. by rewrite IH.
Qed.

(** A letter, a digit or an underscore is none of the characters that
    [normalize] rewrites, and its mapping keeps it. *)
Lemma sanitized_rune r :
  unicode_IsLetter uni r || unicode_IsDigit uni r || bool_decide (r = chr "_")
    = true →
  r ≠ chr "+" ∧ r ≠ chr "@" ∧ normalize_mapping uni r = r.
Proof.
  intros Hr.
  assert (Hno : ∀ c : ascii,
    unicode_IsLetter uni (chr c) || unicode_IsDigit uni (chr c)
      || bool_decide (chr c = chr "_") = false → r ≠ chr c).
  { intros c Hc ->. congruence. }
  split; [by apply Hno|]. split; [by apply Hno|].
  unfold normalize_mapping.
  destruct (decide (r = chr "." ∨ r = chr "-")) as [[->| ->]|_];
    [by vm_compute in Hr..|].
  by rewrite Hr.
Qed.

Lemma normalize_in_sanitized order s :
  wf_string s → sanitized uni s →
  Forall (λ kv : rune * gostring, kv.1 ∉ s) order →
  normalize_in uni order s = s.
Proof.
  intros Hwf Hsan Horder. unfold normalize_in.
  assert (Hfold : foldl (λ value kv, strings_ReplaceAll value kv.1 kv.2)
                    s order = s).
  { induction Horder as [|kv order Hkv _ IH]; [reflexivity|].
    cbn. by rewrite strings_ReplaceAll_absent. }
  rewrite Hfold. apply strings_Map_fixed.
  unfold wf_string, sanitized in *. rewrite Forall_forall in *.
  intros r Hr. split; [|by apply Hwf].
  by apply sanitized_rune, Hsan.
Qed.

Lemma normalize_sanitized s :
  wf_string s → sanitized uni s → normalize uni s = s.
Proof.
  intros Hwf Hsan. apply normalize_in_sanitized; [done..|].
  unfold sanitized in Hsan. rewrite Forall_forall in Hsan.
  constructor; [|constructor; [|constructor]]; cbn; intros Hin;
    apply Hsan, sanitized_rune in Hin; destruct Hin as (H1 & H2 & _);
    congruence.
Qed.

Lemma strings_Map_Forall (P : rune → Prop) mapping s :
  (∀ r, 0 ≤ mapping r → P (mapping r)) → Forall P (strings_Map mapping s).
Proof.
  intros HP. unfold strings_Map.
  induction s as [|r s IH]; cbn; [constructor|].
  destruct (decide (mapping r < 0)); [done|].
  constructor; [apply HP; lia|done].
Qed.

(** What [normalize] returns is made of letters, digits and underscores. *)
Lemma normalize_in_result order value :
  wf_string (normalize_in uni order value) ∧
  sanitized uni (normalize_in uni order value).
Proof.
  unfold normalize_in. split; apply strings_Map_Forall; [done|].
  intros r. unfold normalize_mapping.
  destruct (decide (r = chr "." ∨ r = chr "-")); [reflexivity|].
  destruct (unicode_IsLetter uni r || unicode_IsDigit uni r
            || bool_decide (r = chr "_")) eqn:Hr; [done|].
  lia.
Qed.

Lemma normalize_idempotent value :
  normalize uni (normalize uni value) = normalize uni value.
Proof.
  destruct (normalize_in_result specialCharacterMapping value).
  by apply normalize_sanitized.
Qed.

(** The order in which the [range] over [specialCharacterMapping] yields
    its two entries does not matter. *)
Lemma normalize_order_irrelevant value :
  normalize_in uni (reverse specialCharacterMapping) value =
  normalize uni value.
Proof.
  unfold normalize, normalize_in. f_equal. cbn.
  unfold strings_ReplaceAll. induction value as [|r value IH]; [reflexivity|].
  cbn. rewrite !bind_app, IH. f_equal.
  destruct (decide (r = chr "+")) as [->|]; [reflexivity|].
  destruct (decide (r = chr "@")) as [->|]; [reflexivity|].
  cbn. destruct (decide (r = chr "+")), (decide (r = chr "@")); done.
Qed.

(** C3 (as amended). [toGoType] yields a pointer type whenever the element
    is nillable.  When the namespace-stripped, lower-cased name is in the
    primitive table, the non-nillable mapping is the table's type, which is
    not a pointer, and the nillable mapping is that type behind the
    indirection marker.  When the name is not in the table the result is
    the sanitized, exported name behind the indirection marker whatever the
    nillable flag. *)
Theorem toGoType_nillable_indirection xsdType :
  let t := stripns xsdType in
  let value := map_get xsd2GoTypes (strings_ToLower uni t) in
  is_pointer (toGoType uni xsdType true) = true ∧
  (value ≠ [] →
     toGoType uni xsdType false = value ∧
     is_pointer (toGoType uni xsdType false) = false ∧
     toGoType uni xsdType true = str "*" ++ toGoType uni xsdType false) ∧
  (value = [] →
     ∀ nillable,
       toGoType uni xsdType nillable =
         str "*" ++ replaceReservedWords uni (makePublic uni t) ∧
       is_pointer (toGoType uni xsdType nillable) = true).
Proof.
  intros t value. unfold toGoType. fold t. fold value.
  destruct (decide (value ≠ [])) as [Hv|Hv].
  - split; [reflexivity|]. split; [|done].
    intros _. split; [reflexivity|]. split; [|reflexivity].
    unfold value, map_get in *.
    destruct (xsd2GoTypes !! strings_ToLower uni t) as [v|] eqn:Hlook;
      [|done].
    by apply xsd2GoTypes_values in Hlook as [_ ?].
  - split; [reflexivity|]. split; [done|].
    intros _ nillable. done.
Qed.

(** C4. Sanitizing an identifier made of letters, digits and underscores
    that is not a Go keyword returns it unchanged, by [normalize] and by
    [replaceReservedWords]; sanitizing a Go keyword appends an underscore,
    the result is no keyword, and sanitizing that result again leaves it as
    it is; [normalize] applied twice is [normalize] applied once, on every
    string. *)
Theorem sanitization_idempotent :
  (∀ identifier,
     wf_string identifier → sanitized uni identifier →
     identifier ∉ go_keywords →
     normalize uni identifier = identifier ∧
     replaceReservedWords uni identifier = identifier) ∧
  (∀ keyword,
     keyword ∈ go_keywords →
     (replaceReservedWords uni keyword = keyword ++ str "_") ∧
     (replaceReservedWords uni keyword ∉ go_keywords) ∧
     (replaceReservedWords uni (replaceReservedWords uni keyword) =
        replaceReservedWords uni keyword)) ∧
  (∀ value, normalize uni (normalize uni value) = normalize uni value).
Proof.
  split; [|split; [|apply normalize_idempotent]].
  - intros identifier Hwf Hsan Hkw.
    pose proof (normalize_sanitized identifier Hwf Hsan) as Hnorm.
    split; [done|]. unfold replaceReservedWords, map_get.
    apply reservedWords_keys in Hkw. rewrite Hkw. cbn.
    by destruct (decide ([] ≠ [])).
  - assert (Hall : Forall (λ keyword,
      (replaceReservedWords uni keyword = keyword ++ str "_") ∧
      (replaceReservedWords uni keyword ∉ go_keywords) ∧
      (replaceReservedWords uni (replaceReservedWords uni keyword) =
         replaceReservedWords uni keyword)) go_keywords).
    { decide_table. }
    rewrite Forall_forall in Hall. exact Hall.
Qed.


End mapper_facts.

(** An unmapped name never consults the Unicode tables when it is ASCII. *)
Lemma toGoType_Foo uni nillable :
  toGoType uni (str "tns:Foo") nillable = str "*Foo".
Proof. by destruct nillable. Qed.

(** C3 as worded fails on a complex-type reference: the non-nillable
    mapping of [tns:Foo] is the pointer type [*Foo], the same as the
    nillable mapping. *)
Lemma toGoType_complex_ignores_nillable :
  toGoType ascii_tables (str "tns:Foo") false = str "*Foo" ∧
  is_pointer (toGoType ascii_tables (str "tns:Foo") false) = true ∧
  toGoType ascii_tables (str "tns:Foo") true =
    toGoType ascii_tables (str "tns:Foo") false.
Proof. by rewrite !toGoType_Foo. Qed.

(** The identifier [Foo_1] is unchanged by sanitization. *)
Lemma sanitization_idempotent_witness :
  wf_string (str "Foo_1") ∧ sanitized ascii_tables (str "Foo_1") ∧
  (str "Foo_1" ∉ go_keywords) ∧
  normalize ascii_tables (str "Foo_1") = str "Foo_1" ∧
  replaceReservedWords ascii_tables (str "Foo_1") = str "Foo_1".
Proof.
  assert (Hwf : wf_string (str "Foo_1")) by (repeat constructor; done).
  assert (Hsan : sanitized ascii_tables (str "Foo_1"))
    by (repeat constructor).
  assert (Hkw : str "Foo_1" ∉ go_keywords) by decide_table.
  split; [done|]. split; [done|]. split; [done|].
  exact (proj1 (sanitization_idempotent ascii_tables) _ Hwf Hsan Hkw).
Defined.

(** C2. Collision resolution can leave two declarations with one name.
    On [two_items] (schema [urn:a] declares [Item] and [Item1], schema
    [urn:b] declares [Item]) the two [Item]s become [Item2] and [Item1];
    the second new name is the name of the untouched declaration of
    [urn:a], so the declared names are not distinct, and the collision map
    sends the references to [Item] of [urn:b] to that shared name. *)
Theorem collision_renaming_leaves_duplicates :
  all_decl_names two_items = [str "Item"; str "Item1"; str "Item"] ∧
  all_decl_names (resolve_collisions two_items).1 =
    [str "Item2"; str "Item1"; str "Item1"] ∧
  ¬ NoDup (all_decl_names (resolve_collisions two_items).1) ∧
  resolveCollisions (resolve_collisions two_items).2
    !! collision_key (str "urn:b") (str "Item") = Some (str "Item1") ∧
  resolveCollisions (resolve_collisions two_items).2
    !! collision_key (str "urn:a") (str "Item1") = None.
Proof.
  split; [reflexivity|].
  assert (Hnames : all_decl_names (resolve_collisions two_items).1 =
                   [str "Item2"; str "Item1"; str "Item1"]) by by vm_compute.
  split; [done|]. split; [|split; by vm_compute].
  rewrite Hnames. intros Hnd. apply NoDup_cons in Hnd as [_ Hnd].
  apply NoDup_cons in Hnd as [Hnotin _]. apply Hnotin. by left.
Qed.

(** ** Message lookup *)

Section lookup_facts.
Context (uni : UnicodeTables).

Lemma head_filter_app {A} (P : A → Prop) `{!∀ x, Decision (P x)} (l1 l2 : list A) :
  head (filter P (l1 ++ l2)) =
  match head (filter P l1) with
  | Some x => Some x
  | None => head (filter P l2)
  end.
Proof.
  rewrite filter_app. by destruct (filter P l1).
Qed.

Lemma findType_elements_first elRef els :
  findType_elements uni elRef els =
  element_type <$>
    head (filter (λ el, strings_EqualFold uni elRef (XSDElement.Name el) = true)
            els).
Proof.
  induction els as [|el els IH]; [reflexivity|].
  cbn [findType_elements]. rewrite filter_cons.
  destruct (strings_EqualFold uni elRef (XSDElement.Name el)) eqn:Heq.
  - by destruct (decide (true = true)).
  - by destruct (decide (false = true)).
Qed.

Lemma findType_schemas_first elRef schemas :
  findType_schemas uni elRef schemas =
  element_type <$>
    head (filter (λ el, strings_EqualFold uni elRef (XSDElement.Name el) = true)
            (schemas ≫= XSDSchema.Elements)).
Proof.
  induction schemas as [|schema rest IH]; [reflexivity|].
  cbn [findType_schemas mbind list_bind].
  rewrite head_filter_app, findType_elements_first, IH.
  by destruct (head (filter _ (XSDSchema.Elements schema))).
Qed.

(** A part with no declared type resolves through [findType_schemas]. *)
Lemma carried_type_element schemas part :
  WSDLPart.Type_ part = [] →
  carried_type uni schemas part =
  findType_schemas uni (stripns (WSDLPart.Element part)) schemas.
Proof.
  intros Hty. unfold carried_type. rewrite Hty.
  destruct (decide ([] ≠ [])); [done|]. by rewrite findType_schemas_first.
Qed.

Lemma findType_messages_skip schemas message pre l :
  Forall (λ msg, WSDLMessage.Name msg ≠ message) pre →
  findType_messages uni schemas message (pre ++ l) =
  findType_messages uni schemas message l.
Proof.
  induction 1 as [|msg pre Hne _ IH]; [reflexivity|].
  cbn. by destruct (decide (WSDLMessage.Name msg ≠ message)).
Qed.

Lemma findType_messages_spec schemas message msgs :
  (findType_messages uni schemas message msgs).1 =
  default []
    (head (omap (λ msg, head (WSDLMessage.Parts msg) ≫= carried_type uni schemas)
             (filter (λ msg, WSDLMessage.Name msg = message) msgs))).
Proof.
  induction msgs as [|msg rest IH]; [reflexivity|].
  cbn [findType_messages]. rewrite filter_cons.
  destruct (decide (WSDLMessage.Name msg ≠ message)) as [Hne|Heq].
  - by destruct (decide (WSDLMessage.Name msg = message)).
  - destruct (decide (WSDLMessage.Name msg = message)); [|done].
    cbn [omap list_omap].
    destruct (WSDLMessage.Parts msg) as [|part parts]; cbn.
    + rewrite <- IH. by destruct (findType_messages uni schemas message rest).
    + destruct (decide (WSDLPart.Type_ part ≠ [])) as [Hty|Hty].
      * unfold carried_type. by destruct (decide (WSDLPart.Type_ part ≠ [])).
      * apply dec_stable in Hty.
        rewrite (carried_type_element schemas part Hty).
        by destruct (findType_schemas uni _ schemas).
Qed.

(** C9. [findType] strips the namespace of the message name and looks at
    the first message so named.  If its first part declares a type, the
    result is that type, namespace-stripped.  Otherwise the part's element
    reference, namespace-stripped, is matched without regard to case
    against the elements of all schemas in order, and the first match
    gives its declared type, namespace-stripped, or its own name when it
    declares none.  A message so named without parts is skipped: a warning
    is logged and the search goes on with the messages after it.  When no
    message so named resolves, the result is the empty string.  In
    general the result is that of the first message so named whose first
    part resolves. *)
Theorem findType_carried_type wsdl message :
  (findType uni wsdl message).1 = spec_findType uni wsdl message ∧
  (∀ pre msg post,
     WSDL.Messages wsdl = pre ++ msg :: post →
     Forall (λ m, WSDLMessage.Name m ≠ stripns message) pre →
     WSDLMessage.Name msg = stripns message →
     (∀ part parts,
        WSDLMessage.Parts msg = part :: parts → WSDLPart.Type_ part ≠ [] →
        findType uni wsdl message = (stripns (WSDLPart.Type_ part), [])) ∧
     (∀ part parts before el after,
        WSDLMessage.Parts msg = part :: parts → WSDLPart.Type_ part = [] →
        WSDL.Schemas wsdl ≫= XSDSchema.Elements = before ++ el :: after →
        Forall (λ e, strings_EqualFold uni (stripns (WSDLPart.Element part))
                       (XSDElement.Name e) = false) before →
        strings_EqualFold uni (stripns (WSDLPart.Element part))
          (XSDElement.Name el) = true →
        findType uni wsdl message =
          (if decide (XSDElement.Type_ el ≠ [])
           then stripns (XSDElement.Type_ el) else XSDElement.Name el, [])) ∧
     (WSDLMessage.Parts msg = [] →
        findType uni wsdl message =
          ((findType_messages uni (WSDL.Schemas wsdl) (stripns message) post).1,
           no_parts_warning (WSDLMessage.Name msg) ::
           (findType_messages uni (WSDL.Schemas wsdl) (stripns message) post).2))) ∧
  (Forall (λ msg,
       WSDLMessage.Name msg = stripns message →
       head (WSDLMessage.Parts msg) ≫= carried_type uni (WSDL.Schemas wsdl)
         = None)
     (WSDL.Messages wsdl) →
   (findType uni wsdl message).1 = []).
Proof.
  split; [apply findType_messages_spec|]. split.
  - intros pre msg post Hmsgs Hpre Hname. unfold findType. rewrite Hmsgs.
    rewrite (findType_messages_skip _ _ _ _ Hpre). cbn [findType_messages].
    destruct (decide (WSDLMessage.Name msg ≠ stripns message)); [done|].
    split; [|split].
    + intros part parts -> Hty.
      by destruct (decide (WSDLPart.Type_ part ≠ [])).
    + intros part parts before el after -> Hty Hels Hbefore Hel.
      destruct (decide (WSDLPart.Type_ part ≠ [])); [done|].
      rewrite findType_schemas_first, Hels, head_filter_app.
      assert (Hnone : filter
                (λ e, strings_EqualFold uni (stripns (WSDLPart.Element part))
                        (XSDElement.Name e) = true) before = []).
      { clear Hels. induction Hbefore as [|e before He _ IH]; [reflexivity|].
        rewrite filter_cons, He.
        by destruct (decide (false = true)). }
      rewrite Hnone, filter_cons. cbn.
      destruct (decide (strings_EqualFold uni _ (XSDElement.Name el) = true));
        [|done].
      reflexivity.
    + intros ->.
      by destruct (findType_messages uni _ _ post).
  - intros Hnone. unfold findType. rewrite findType_messages_spec.
    assert (Hempty : ∀ msgs,
      Forall (λ msg,
        WSDLMessage.Name msg = stripns message →
        head (WSDLMessage.Parts msg) ≫= carried_type uni (WSDL.Schemas wsdl)
          = None) msgs →
      omap (λ msg, head (WSDLMessage.Parts msg)
                   ≫= carried_type uni (WSDL.Schemas wsdl))
        (filter (λ msg, WSDLMessage.Name msg = stripns message) msgs) = []).
    { induction 1 as [|msg msgs Hmsg _ IH]; [reflexivity|].
      rewrite filter_cons.
      destruct (decide (WSDLMessage.Name msg = stripns message)); [|done].
      cbn [omap list_omap]. by rewrite (Hmsg e). }
    by rewrite Hempty.
Qed.

End lookup_facts.

(** ** Resolution of external schemas *)

Section resolver_facts.
Context {Location : Type} (w : World Location).

Lemma download_all_app dl (l1 l2 : list gostring) : ∀ g : @Resolver Location,
  download_all dl (l1 ++ l2) g =
  match download_all dl l1 g with
  | Done g' => download_all dl l2 g'
  | other => other
  end.
Proof.
  induction l1 as [|ref l1 IH]; intros g; [reflexivity|].
  cbn. destruct (dl ref g); [apply IH|done..].
Qed.

Lemma imports_loop_all dl imports : ∀ g : @Resolver Location,
  imports_loop dl imports g =
  download_all dl
    (filter (λ ref, ref ≠ []) (XSDImport.SchemaLocation <$> imports)) g.
Proof.
  induction imports as [|impts rest IH]; intros g; [reflexivity|].
  cbn [imports_loop fmap list_fmap]. rewrite filter_cons.
  destruct (decide (XSDImport.SchemaLocation impts = [])) as [Hempty|Hsome].
  - destruct (decide (XSDImport.SchemaLocation impts ≠ [])); [done|apply IH].
  - destruct (decide (XSDImport.SchemaLocation impts ≠ [])); [|done].
    cbn. destruct (dl _ g); [apply IH|done..].
Qed.

Lemma includes_loop_all dl includes : ∀ g : @Resolver Location,
  includes_loop dl includes g =
  download_all dl (XSDInclude.SchemaLocation <$> includes) g.
Proof.
  induction includes as [|incl rest IH]; intros g; [reflexivity|].
  cbn. destruct (dl _ g); [apply IH|done..].
Qed.

(** The two loops of [resolveXSDExternals w] hand the references of the
    schema to [download w] one after the other. *)
Lemma resolveXSDExternals_unfold fuel schema loc g :
  resolveXSDExternals w (S fuel) schema loc g =
  download_all (download w (resolveXSDExternals w fuel) loc)
    (external_refs schema) g.
Proof.
  cbn [resolveXSDExternals]. unfold external_refs.
  rewrite download_all_app, imports_loop_all.
  destruct (download_all _ _ g); [apply includes_loop_all|done..].
Qed.

Lemma extends_refl g : extends w g [] g.
Proof.
  unfold extends. cbn. rewrite app_nil_r.
  split; [done|]. split; [by rewrite (right_id_L ∅ (∪))|].
  split; constructor.
Qed.

Lemma extends_subseteq g new g' :
  extends w g new g' → resolvedXSDExternals g ⊆ resolvedXSDExternals g'.
Proof. intros (_ & -> & _). apply union_subseteq_l. Qed.

Lemma extends_trans g n1 g1 n2 g2 :
  extends w g n1 g1 → extends w g1 n2 g2 → extends w g (n1 ++ n2) g2.
Proof.
  intros (Hf1 & Hr1 & Hnd1 & Hnew1) (Hf2 & Hr2 & Hnd2 & Hnew2).
  unfold extends. rewrite Hf2, Hf1, Hr2, Hr1, fmap_app, <- app_assoc.
  split; [done|]. split; [by rewrite list_to_set_app_L, (assoc_L (∪))|].
  split.
  - apply NoDup_app. split; [done|]. split; [|done].
    intros k Hk1 Hk2. apply list_elem_of_fmap in Hk2 as (l & -> & Hl).
    rewrite Forall_forall in Hnew2. apply (Hnew2 l Hl). rewrite Hr1.
    apply elem_of_union_r. by apply elem_of_list_to_set.
  - apply Forall_app. split; [done|].
    eapply Forall_impl; [exact Hnew2|]. intros l Hl Hin. apply Hl.
    rewrite Hr1. by apply elem_of_union_l.
Qed.

Lemma refs_resolved_mono (X Y : gset (list Z)) base schema :
  X ⊆ Y → refs_resolved w X base schema → refs_resolved w Y base schema.
Proof.
  intros HXY Hres ref Href. destruct (Hres ref Href) as (l & Hl & Hin).
  exists l. split; [done|]. by apply HXY.
Qed.

Lemma completes_refl g : completes w g [] g.
Proof.
  split; [apply extends_refl|]. cbn. rewrite app_nil_r. split; [done|].
  constructor.
Qed.

Lemma completes_trans g n1 g1 n2 g2 :
  completes w g n1 g1 → completes w g1 n2 g2 → completes w g (n1 ++ n2) g2.
Proof.
  intros (He1 & Hs1 & Hc1) (He2 & Hs2 & Hc2).
  split; [by eapply extends_trans|]. split.
  - rewrite Hs2, Hs1, omap_app. by rewrite <- app_assoc.
  - apply Forall_app. split; [|done].
    eapply Forall_impl; [exact Hc1|]. intros l (schema & Hat & Hres).
    exists schema. split; [done|].
    eapply refs_resolved_mono; [|exact Hres]. by eapply extends_subseteq.
Qed.

Section bounded.
(** The keys of the import graph form a finite set. *)
Context (U : gset (list Z)) (HU : closed_world w U).

Lemma size_difference_mono (X Y : gset (list Z)) :
  X ⊆ Y → size (U ∖ Y) ≤ size (U ∖ X).
Proof.
  intros HXY. apply subseteq_size. intros k Hk.
  apply elem_of_difference in Hk as [HkU HkY].
  apply elem_of_difference. split; [done|]. intros HkX. by apply HkY, HXY.
Qed.

Lemma size_difference_insert (X : gset (list Z)) k :
  k ∈ U → k ∉ X → size (U ∖ ({[k]} ∪ X)) < size (U ∖ X).
Proof.
  intros HkU HkX. apply subset_size. split.
  - intros k' Hk'. apply elem_of_difference in Hk' as [Hk'U Hk'X].
    apply elem_of_difference. split; [done|]. intros Hin. apply Hk'X.
    by apply elem_of_union_r.
  - intros Hsub. assert (Hin : k ∈ U ∖ ({[k]} ∪ X)).
    { apply Hsub, elem_of_difference. by split. }
    apply elem_of_difference in Hin as [_ Hin]. apply Hin.
    by apply elem_of_union_l, elem_of_singleton.
Qed.

(** One fetch, of a key not seen before, followed by further fetches. *)
Lemma extends_fetch g location new g' :
  Location_String w location ∉ resolvedXSDExternals g →
  extends w
    {| resolvedXSDExternals :=
         {[Location_String w location]} ∪ resolvedXSDExternals g;
       Types_Schemas := Types_Schemas g;
       fetched := fetched g ++ [location] |} new g' →
  extends w g (location :: new) g'.
Proof.
  intros Hfresh Hext. change (location :: new) with ([location] ++ new).
  eapply extends_trans; [|exact Hext].
  unfold extends. cbn.
  split; [done|]. split.
  - by rewrite (right_id_L ∅ (∪)), (comm_L (∪)).
  - split; [|by repeat constructor].
    apply NoDup_singleton.
Qed.

Lemma download_post fuel base ref g :
  (∀ schema loc g,
     refs_within w U loc schema →
     size (U ∖ resolvedXSDExternals g) < fuel →
     resolve_post w loc (external_refs schema) g
       (resolveXSDExternals w fuel schema loc g)) →
  (∀ l, Location_Parse w base ref = inr l → Location_String w l ∈ U) →
  size (U ∖ resolvedXSDExternals g) ≤ fuel →
  resolve_post w base [ref] g (download w (resolveXSDExternals w fuel) base ref g).
Proof.
  intros IH Hin Hsize. unfold download.
  destruct (Location_Parse w base ref) as [err|location] eqn:Hparse.
  { exists []. apply extends_refl. }
  destruct (decide (Location_String w location ∈ resolvedXSDExternals g))
    as [Hseen|Hfresh].
  { exists []. split; [apply completes_refl|].
    intros ref' Href'. apply list_elem_of_singleton in Href' as ->.
    by exists location. }
  set (g1 := {| resolvedXSDExternals :=
                  {[Location_String w location]} ∪ resolvedXSDExternals g;
                Types_Schemas := Types_Schemas g;
                fetched := fetched g ++ [location] |}).
  assert (Hg1 : extends w g [location] g1).
  { apply extends_fetch; [done|]. apply extends_refl. }
  assert (Hsize1 : size (U ∖ resolvedXSDExternals g1) < fuel).
  { pose proof (size_difference_insert (resolvedXSDExternals g)
                  (Location_String w location) (Hin _ eq_refl) Hfresh).
    cbn. lia. }
  assert (Hkey : ∀ g2 new, extends w g1 new g2 →
            Location_String w location ∈ resolvedXSDExternals g2).
  { intros g2 new Hext. apply (extends_subseteq _ _ _ Hext). cbn.
    by apply elem_of_union_l, elem_of_singleton. }
  destruct (fetchFile w location) as [err|data] eqn:Hfetch.
  { by exists [location]. }
  destruct (xml_Unmarshal w data) as [err|newschema] eqn:Hxml.
  { by exists [location]. }
  assert (Hat : schema_at w location = Some newschema).
  { unfold schema_at. by rewrite Hfetch, Hxml. }
  destruct (decide (0 < length (XSDSchema.Includes newschema) ∨
                    0 < length (XSDSchema.Imports newschema)))
    as [Hrefs|Hnone].
  - specialize (IH newschema location g1
                  (HU location newschema (Hin _ eq_refl) Hat) Hsize1).
    destruct (resolveXSDExternals w fuel newschema location g1)
      as [g2|err g2|]; cbn in IH; [|destruct IH as [new Hext]|done].
    + destruct IH as (new & (Hext & Hschemas & Hclosed) & Hres).
      exists (location :: new). split; [split; [|split]|].
      * apply extends_fetch; [done|]. destruct Hext as (? & ? & ? & ?).
        by repeat split.
      * cbn. rewrite Hat, Hschemas. cbn.
        rewrite <- app_assoc. apply Permutation_app_head.
        symmetry. apply Permutation_cons_append.
      * constructor; [by exists newschema|done].
      * intros ref' Href'. apply list_elem_of_singleton in Href' as ->.
        exists location. split; [done|]. cbn. by eapply Hkey.
    + exists (location :: new). by apply extends_fetch.
  - exists [location]. split; [split; [|split]|].
    + apply extends_fetch; [done|].
      destruct (extends_refl g1) as (? & ? & ? & ?). by repeat split.
    + cbn. by rewrite Hat.
    + constructor; [|constructor]. exists newschema. split; [done|].
      intros ref' Href'. exfalso.
      assert (Hlen : length (external_refs newschema) = 0).
      { unfold external_refs.
        destruct (XSDSchema.Includes newschema), (XSDSchema.Imports newschema);
          cbn in *; try reflexivity; exfalso; apply Hnone; lia. }
      destruct (external_refs newschema); [by apply elem_of_nil in Href'|].
      discriminate.
    + intros ref' Href'. apply list_elem_of_singleton in Href' as ->.
      exists location. split; [done|]. cbn.
      by apply elem_of_union_l, elem_of_singleton.
Qed.

Lemma download_all_post dl fuel base refs :
  (∀ ref g, ref ∈ refs → size (U ∖ resolvedXSDExternals g) ≤ fuel →
            resolve_post w base [ref] g (dl ref g)) →
  ∀ g, size (U ∖ resolvedXSDExternals g) ≤ fuel →
       resolve_post w base refs g (download_all dl refs g).
Proof.
  induction refs as [|ref rest IH]; intros Hdl g Hsize.
  { exists []. split; [apply completes_refl|]. intros ref Href.
    by apply elem_of_nil in Href. }
  cbn [download_all].
  assert (Hrest : ∀ ref' g, ref' ∈ rest →
            size (U ∖ resolvedXSDExternals g) ≤ fuel →
            resolve_post w base [ref'] g (dl ref' g)).
  { intros ref' g' Hin'. apply Hdl. by right. }
  specialize (IH Hrest).
  specialize (Hdl ref g (list_elem_of_here _ _) Hsize).
  destruct (dl ref g) as [g1|err g1|]; cbn in Hdl; [|done..].
  destruct Hdl as (n1 & Hc1 & Href).
  assert (Hsub1 : resolvedXSDExternals g ⊆ resolvedXSDExternals g1).
  { eapply extends_subseteq. apply Hc1. }
  assert (Hsize1 : size (U ∖ resolvedXSDExternals g1) ≤ fuel).
  { pose proof (size_difference_mono _ _ Hsub1). lia. }
  specialize (IH g1 Hsize1).
  destruct (download_all dl rest g1) as [g2|err g2|]; cbn in IH |- *;
    [|destruct IH as [n2 He2]|done].
  - destruct IH as (n2 & Hc2 & Hrest2). exists (n1 ++ n2).
    split; [by eapply completes_trans|].
    intros ref' Href'. apply elem_of_cons in Href' as [->|Href'];
      [|by apply Hrest2].
    destruct (Href ref) as (l & Hl & Hin); [by apply list_elem_of_singleton|].
    exists l. split; [done|].
    eapply extends_subseteq; [apply Hc2|done].
  - exists (n1 ++ n2). eapply extends_trans; [apply Hc1|done].
Qed.

(** With more fuel than there are keys still to be seen, a call ends, and
    ends as [resolve_post w] says. *)
Lemma resolveXSDExternals_post fuel : ∀ schema loc g,
  refs_within w U loc schema →
  size (U ∖ resolvedXSDExternals g) < fuel →
  resolve_post w loc (external_refs schema) g
    (resolveXSDExternals w fuel schema loc g).
Proof.
  induction fuel as [|fuel IH]; intros schema loc g Hwithin Hsize; [lia|].
  rewrite resolveXSDExternals_unfold.
  apply (download_all_post _ fuel); [|lia].
  intros ref g' Href Hsize'. apply download_post; [done| |done].
  intros l. by apply Hwithin.
Qed.

Lemma unmarshal_loop_post fuel loc roots : ∀ g,
  Forall (refs_within w U loc) roots →
  size (U ∖ resolvedXSDExternals g) < fuel →
  match unmarshal_loop w fuel roots loc g with
  | Done g' =>
      ∃ new, completes w g new g' ∧
        Forall (refs_resolved w (resolvedXSDExternals g') loc) roots
  | Failed _ g' => ∃ new, extends w g new g'
  | OutOfFuel => False
  end.
Proof.
  induction roots as [|root rest IH]; intros g Hwithin Hsize.
  { exists []. split; [apply completes_refl|constructor]. }
  cbn [unmarshal_loop].
  apply Forall_cons in Hwithin as [Hwroot Hwrest].
  pose proof (resolveXSDExternals_post fuel root loc g Hwroot Hsize) as Hroot.
  destruct (resolveXSDExternals w fuel root loc g) as [g1|err g1|];
    cbn in Hroot; [|done..].
  destruct Hroot as (n1 & Hc1 & Href).
  assert (Hsub1 : resolvedXSDExternals g ⊆ resolvedXSDExternals g1).
  { eapply extends_subseteq. apply Hc1. }
  assert (Hsize1 : size (U ∖ resolvedXSDExternals g1) < fuel).
  { pose proof (size_difference_mono _ _ Hsub1). lia. }
  specialize (IH g1 Hwrest Hsize1).
  destruct (unmarshal_loop w fuel rest loc g1) as [g2|err g2|];
    [|destruct IH as [n2 He2]|done].
  - destruct IH as (n2 & Hc2 & Hrest). exists (n1 ++ n2).
    split; [by eapply completes_trans|].
    constructor; [|done].
    eapply refs_resolved_mono; [|exact Href].
    eapply extends_subseteq. apply Hc2.
  - exists (n1 ++ n2). eapply extends_trans; [apply Hc1|done].
Qed.

End bounded.

(** More fuel does not change how a call ends. *)
Lemma download_all_fuel (dl dl' : gostring → @Resolver Location → Outcome) refs :
  (∀ ref g, dl ref g ≠ OutOfFuel → dl' ref g = dl ref g) →
  ∀ g, download_all dl refs g ≠ OutOfFuel →
       download_all dl' refs g = download_all dl refs g.
Proof.
  intros Hdl. induction refs as [|ref rest IH]; intros g Hout; [reflexivity|].
  cbn in Hout |- *.
  destruct (dl ref g) as [g1|err g1|] eqn:Hstep; [| |done].
  - rewrite Hdl by (by rewrite Hstep). rewrite Hstep. by apply IH.
  - rewrite Hdl by (by rewrite Hstep). by rewrite Hstep.
Qed.

Lemma resolveXSDExternals_fuel_S fuel : ∀ schema loc g,
  resolveXSDExternals w fuel schema loc g ≠ OutOfFuel →
  resolveXSDExternals w (S fuel) schema loc g =
  resolveXSDExternals w fuel schema loc g.
Proof.
  induction fuel as [|fuel IH]; intros schema loc g Hout; [done|].
  rewrite !resolveXSDExternals_unfold in *.
  apply download_all_fuel; [|done].
  intros ref g' Hstep. unfold download in *.
  destruct (Location_Parse w loc ref) as [err|location]; [done|].
  destruct (decide (Location_String w location ∈ resolvedXSDExternals g'));
    [done|].
  destruct (fetchFile w location) as [err|data]; [done|].
  destruct (xml_Unmarshal w data) as [err|newschema]; [done|].
  destruct (decide (0 < length (XSDSchema.Includes newschema) ∨
                    0 < length (XSDSchema.Imports newschema))); [|done].
  rewrite IH; [done|]. intros Heq. by rewrite Heq in Hstep.
Qed.

Lemma resolveXSDExternals_fuel fuel fuel' schema loc g :
  fuel ≤ fuel' →
  resolveXSDExternals w fuel schema loc g ≠ OutOfFuel →
  resolveXSDExternals w fuel' schema loc g =
  resolveXSDExternals w fuel schema loc g.
Proof.
  induction 1 as [|fuel' _ IH]; intros Hout; [reflexivity|].
  rewrite resolveXSDExternals_fuel_S; rewrite IH; done.
Qed.

Lemma unmarshal_loop_fuel fuel fuel' loc roots : ∀ g,
  fuel ≤ fuel' →
  unmarshal_loop w fuel roots loc g ≠ OutOfFuel →
  unmarshal_loop w fuel' roots loc g = unmarshal_loop w fuel roots loc g.
Proof.
  induction roots as [|root rest IH]; intros g Hle Hout; [reflexivity|].
  cbn [unmarshal_loop] in *.
  destruct (resolveXSDExternals w fuel root loc g) as [g1|err g1|] eqn:Hroot;
    [| |done].
  - rewrite (resolveXSDExternals_fuel fuel fuel') by (done || by rewrite Hroot).
    rewrite Hroot. by apply IH.
  - rewrite (resolveXSDExternals_fuel fuel fuel') by (done || by rewrite Hroot).
    by rewrite Hroot.
Qed.

Lemma omap_all_Some {A B} (f : A → option B) (l : list A) :
  Forall (λ x, is_Some (f x)) l → length (omap f l) = length l.
Proof.
  induction 1 as [|x l [y Hy] _ IH]; [reflexivity|].
  cbn. rewrite Hy. cbn. by rewrite IH.
Qed.


End resolver_facts.

(** The world with a cycle: the import of [a.xsd] fetches [a.xsd], then
    [b.xsd]; the include of [a.xsd] in [b.xsd] finds it resolved; the two
    schemas are appended, [b.xsd] first. *)
Lemma cyclic_includes_resolved :
  unmarshal_externals cyc_world 3
    [cyc_root] (str "svc.wsdl") =
  Done {| resolvedXSDExternals := cyc_keys;
          Types_Schemas := [cyc_root; cyc_b; cyc_a];
          fetched := [str "a.xsd"; str "b.xsd"] |}.
Proof. by vm_compute. Qed.


(** ** The command *)

Section formatting_facts.
Context (format_Source : bytes → error + bytes).

Lemma buffer_writes (parts : list bytes) : ∀ data,
  foldl (λ data part, data ++ part) data parts = data ++ concat parts.
Proof.
  induction parts as [|part parts IH]; intros data; cbn.
  - by rewrite app_nil_r.
  - by rewrite IH, <- app_assoc.
Qed.

(** C8. [formattaCodice] formats the concatenation of its parts.  When
    the formatter rejects it, the function returns the concatenation as it
    is and logs one warning that carries the formatter's error; when the
    formatter accepts it, the function returns the formatted bytes and
    logs nothing.  It returns bytes in both cases: it has no error
    result. *)
Theorem formattaCodice_never_fails (parts : list bytes) :
  (∀ err, format_Source (concat parts) = inl err →
     formattaCodice format_Source parts =
       (concat parts, [format_warning err])) ∧
  (∀ formatted, format_Source (concat parts) = inr formatted →
     formattaCodice format_Source parts = (formatted, [])) ∧
  ((formattaCodice format_Source parts).1 = concat parts ∨
   format_Source (concat parts) =
     inr (formattaCodice format_Source parts).1).
Proof.
  unfold formattaCodice. rewrite buffer_writes. cbn [app].
  destruct (format_Source (concat parts)) as [err|formatted]; cbn.
  - split; [by intros ? [= ->]|]. split; [done|]. by left.
  - split; [done|]. split; [by intros ? [= ->]|]. by right.
Qed.

End formatting_facts.

Section command_facts.
Context (uni : UnicodeTables).
Context {Location : Type} (ParseLocation : gostring → error + Location).
Context (Name Version : gostring).
Context (generation : @GoWSDL Location → list (@Event Location)).

(** The package name [NewGoWSDL] settles on. *)
Lemma NewGoWSDL_ok file pkg ignoreTLS exportAllTypes r :
  strings_TrimSpace uni file ≠ [] →
  ParseLocation (strings_TrimSpace uni file) = inr r →
  NewGoWSDL uni ParseLocation file pkg ignoreTLS exportAllTypes =
  inr {| g_loc := r;
         g_pkg := if decide (strings_TrimSpace uni pkg = [])
                  then str "generated_from_wsdl"
                  else strings_TrimSpace uni pkg;
         g_ignoreTLS := ignoreTLS;
         g_makePublicFn := if exportAllTypes then makePublic uni
                           else (λ id, id) |}.
Proof.
  intros Hfile Hloc. unfold NewGoWSDL.
  destruct (decide (strings_TrimSpace uni file = [])); [done|].
  by rewrite Hloc.
Qed.

Lemma no_fetch_in_exit (line : gostring) (code : Z) :
  ¬ Exists (λ e : @Event Location, is_fetch e = true) [Log line; Exit code].
Proof.
  intros Hex. apply Exists_cons in Hex as [Hex|Hex]; [done|].
  apply Exists_cons in Hex as [Hex|Hex]; [done|]. by apply Exists_nil in Hex.
Qed.


End command_facts.



(** * Further properties of the helpers *)

(** ** Namespace stripping *)

Section split_facts.

Lemma strings_Split_cons sep (s : gostring) :
  ∃ piece pieces, strings_Split sep s = piece :: pieces.
Proof.
  destruct s as [|r s]; cbn; [by eexists _, _|].
  destruct (decide (r = sep)); [by eexists _, _|].
  destruct (strings_Split sep s); by eexists _, _.
Qed.

Lemma strings_Split_pieces sep (s : gostring) :
  Forall (λ piece, sep ∉ piece) (strings_Split sep s).
Proof.
  induction s as [|r s IH]; cbn.
  - constructor; [apply not_elem_of_nil|constructor].
  - destruct (decide (r = sep)) as [->|Hne].
    + constructor; [apply not_elem_of_nil|done].
    + destruct (strings_Split sep s) as [|piece pieces].
      * constructor; [|constructor]. intros Hin.
        apply list_elem_of_singleton in Hin. congruence.
      * apply Forall_cons in IH as [Hpiece Hpieces].
        constructor; [|done]. intros Hin.
        apply elem_of_cons in Hin as [Heq|Hin]; [congruence|done].
Qed.

Lemma strings_Split_app sep (p rest : gostring) :
  sep ∉ p → strings_Split sep (p ++ sep :: rest) = p :: strings_Split sep rest.
Proof.
  induction p as [|r p IH]; intros Hnot; cbn.
  - by destruct (decide (sep = sep)).
  - apply not_elem_of_cons in Hnot as [Hne Hnot].
    destruct (decide (r = sep)); [congruence|]. by rewrite IH.
Qed.

Lemma strings_Split_absent sep (s : gostring) :
  sep ∉ s → strings_Split sep s = [s].
Proof.
  induction s as [|r s IH]; intros Hnot; [reflexivity|]. cbn.
  apply not_elem_of_cons in Hnot as [Hne Hnot].
  destruct (decide (r = sep)); [congruence|]. by rewrite IH.
Qed.

Lemma strings_Split_present sep (s : gostring) :
  sep ∈ s → ∃ p1 p2 pieces, strings_Split sep s = p1 :: p2 :: pieces.
Proof.
  intros Hin. apply list_elem_of_split in Hin as (l1 & l2 & ->).
  induction l1 as [|r l1 IH]; cbn.
  - destruct (decide (sep = sep)); [|done].
    destruct (strings_Split_cons sep l2) as (p & ps & ->). by eexists _, _, _.
  - destruct (decide (r = sep)).
    + destruct IH as (p1 & p2 & ps & ->). by eexists _, _, _.
    + destruct IH as (p1 & p2 & ps & ->). by eexists _, _, _.
Qed.

Lemma stripns_piece (xsdType : gostring) :
  stripns xsdType ∈ strings_Split (chr ":") xsdType.
Proof.
  unfold stripns.
  destruct (strings_Split_cons (chr ":") xsdType) as (p1 & ps & ->).
  destruct ps as [|p2 [|p3 ps]].
  - by left.
  - right. by left.
  - by left.
Qed.

(** X1. what [stripns] returns holds no colon, so stripping twice is
    stripping once; [removeNS] is the same function.  A name without colon
    is returned as it is; of [prefix:local] the local part is returned;
    when there are two colons or more, the result is the part before the
    first colon. *)
Theorem stripns_no_colon (xsdType : gostring) :
  (chr ":" ∉ stripns xsdType) ∧
  stripns (stripns xsdType) = stripns xsdType ∧
  removeNS xsdType = stripns xsdType ∧
  (chr ":" ∉ xsdType → stripns xsdType = xsdType) ∧
  (∀ p l, xsdType = p ++ chr ":" :: l → chr ":" ∉ p →
     (chr ":" ∉ l → stripns xsdType = l) ∧
     (chr ":" ∈ l → stripns xsdType = p)).
Proof.
  assert (Hno : chr ":" ∉ stripns xsdType).
  { pose proof (strings_Split_pieces (chr ":") xsdType) as Hall.
    rewrite Forall_forall in Hall. apply Hall, stripns_piece. }
  assert (Hid : ∀ s : gostring, chr ":" ∉ s → stripns s = s).
  { intros s Hs. unfold stripns. by rewrite strings_Split_absent. }
  split; [done|]. split; [by apply Hid|]. split; [reflexivity|].
  split; [apply Hid|].
  intros p l -> Hp. unfold stripns. rewrite strings_Split_app by done. split.
  - intros Hl. by rewrite strings_Split_absent.
  - intros Hl. by destruct (strings_Split_present _ _ Hl) as (p1 & p2 & ps & ->).
Qed.

End split_facts.

Section toGoType_facts.
Context (uni : UnicodeTables).
Local Open Scope Z_scope.

Lemma removePointer_star (s : gostring) :
  removePointerFromType (str "*" ++ s) = s.
Proof. reflexivity. Qed.

Lemma removePointer_plain (s : gostring) :
  (∀ r, head s = Some r → re_space r = false ∧ r ≠ chr "*") →
  removePointerFromType s = s.
Proof.
  intros Hhead. destruct s as [|r s]; [reflexivity|].
  destruct (Hhead r eq_refl) as [Hsp Hstar].
  unfold removePointerFromType. cbn. rewrite Hsp.
  by destruct (decide (r = chr "*")).
Qed.

Lemma xsd2GoTypes_heads k v :
  xsd2GoTypes !! k = Some v →
  ∀ r, head v = Some r → re_space r = false ∧ r ≠ chr "*".
Proof.
  intros Hlook.
  assert (Hok : from_option
                  (λ r, negb (re_space r) && bool_decide (r ≠ chr "*"))
                  true (head v) = true).
  { revert k v Hlook.
    apply (table_Forall
             (λ k v, from_option
                       (λ r, negb (re_space r) && bool_decide (r ≠ chr "*"))
                       true (head v) = true)).
    decide_table. }
  intros r Hr. rewrite Hr in Hok. cbn in Hok.
  apply andb_true_iff in Hok as [Hsp Hstar].
  split; [by apply negb_true_iff|by apply bool_decide_eq_true in Hstar].
Qed.

(** X2. [toGoType] looks at the namespace-stripped name only, and never
    returns the empty string. *)
Theorem toGoType_ignores_prefix xsdType nillable :
  toGoType uni (stripns xsdType) nillable = toGoType uni xsdType nillable ∧
  toGoType uni xsdType nillable ≠ [].
Proof.
  split.
  - unfold toGoType.
    by rewrite (proj1 (proj2 (stripns_no_colon xsdType))).
  - unfold toGoType.
    destruct (decide (map_get xsd2GoTypes
                        (strings_ToLower uni (stripns xsdType)) ≠ []));
      [|done].
    by destruct nillable.
Qed.

(** X3. [removePointerFromType] takes the indirection marker of a mapped
    type away: putting the star before what it returns gives the nillable
    mapping, whatever the flag the type was mapped with; for a name of the
    primitive table what it returns for the nillable mapping is the
    non-nillable mapping. *)
Theorem removePointerFromType_toGoType xsdType nillable :
  str "*" ++ removePointerFromType (toGoType uni xsdType nillable) =
    toGoType uni xsdType true ∧
  (map_get xsd2GoTypes (strings_ToLower uni (stripns xsdType)) ≠ [] →
     removePointerFromType (toGoType uni xsdType true) =
       toGoType uni xsdType false).
Proof.
  unfold toGoType.
  set (value := map_get xsd2GoTypes (strings_ToLower uni (stripns xsdType))).
  destruct (decide (value ≠ [])) as [Hv|Hv].
  - assert (Hhead : ∀ r, head value = Some r →
              re_space r = false ∧ r ≠ chr "*").
    { unfold value, map_get in *.
      destruct (xsd2GoTypes !! strings_ToLower uni (stripns xsdType))
        as [v|] eqn:Hlook; [|done].
      by apply (xsd2GoTypes_heads _ _ Hlook). }
    split; [|intros _; apply removePointer_star].
    destruct nillable; [by rewrite removePointer_star|].
    by rewrite removePointer_plain.
  - split; [|done]. by rewrite removePointer_star.
Qed.

End toGoType_facts.

(** ** Identifier sanitization *)

Section sanitize_facts.
Context (uni : UnicodeTables).
Local Open Scope Z_scope.

(** X4. the order in which Go's [range] yields the two entries of
    [specialCharacterMapping] does not change what [normalize] returns. *)
Theorem normalize_any_order order value :
  order ≡ₚ specialCharacterMapping →
  normalize_in uni order value = normalize uni value.
Proof.
  intros Hperm. symmetry in Hperm.
  apply Permutation_length_2_inv in Hperm as [->| ->]; [reflexivity|].
  apply (normalize_order_irrelevant uni value).
Qed.

Lemma strings_ReplaceAll_app (a b : gostring) old new :
  strings_ReplaceAll (a ++ b) old new =
  strings_ReplaceAll a old new ++ strings_ReplaceAll b old new.
Proof. unfold strings_ReplaceAll. apply bind_app. Qed.

Lemma normalize_in_app order : ∀ a b : gostring,
  normalize_in uni order (a ++ b) =
  normalize_in uni order a ++ normalize_in uni order b.
Proof.
  unfold normalize_in, strings_Map.
  induction order as [|kv order IH]; intros a b; cbn [foldl].
  - apply omap_app.
  - rewrite strings_ReplaceAll_app. apply IH.
Qed.

Lemma reservedWords_values_sanitized k v :
  reservedWords !! k = Some v → sanitized uni v.
Proof.
  revert k v. apply (table_Forall (λ _ v, sanitized uni v)). unfold sanitized.
  decide_table.
Qed.

Lemma reservedWordsInAttr_values_sanitized k v :
  reservedWordsInAttr !! k = Some v → sanitized uni v.
Proof.
  revert k v. apply (table_Forall (λ _ v, sanitized uni v)). unfold sanitized.
  decide_table.
Qed.

(** X5. whatever the identifier, [normalize], [replaceReservedWords] and
    [replaceAttrReservedWords] return letters, digits and underscores
    only. *)
Theorem sanitizers_return_identifier_characters identifier :
  sanitized uni (normalize uni identifier) ∧
  sanitized uni (replaceReservedWords uni identifier) ∧
  sanitized uni (replaceAttrReservedWords uni identifier).
Proof.
  pose proof (normalize_in_result uni specialCharacterMapping identifier)
    as [_ Hnorm].
  split; [done|]. split.
  - unfold replaceReservedWords, map_get.
    destruct (reservedWords !! identifier) as [v|] eqn:Hlook; cbn.
    + destruct (decide (v ≠ [])); [|done].
      by eapply reservedWords_values_sanitized.
    + by destruct (decide ([] ≠ [])).
  - unfold replaceAttrReservedWords, map_get.
    destruct (reservedWordsInAttr !! identifier) as [v|] eqn:Hlook; cbn.
    + destruct (decide (v ≠ [])); [|done].
      by eapply reservedWordsInAttr_values_sanitized.
    + by destruct (decide ([] ≠ [])).
Qed.

Lemma go_keywords_clean keyword :
  keyword ∈ go_keywords →
  wf_string keyword ∧ sanitized uni keyword ∧ normalize uni keyword = keyword.
Proof.
  assert (Hall : Forall (λ keyword,
            wf_string keyword ∧ sanitized uni keyword) go_keywords).
  { unfold wf_string, sanitized. decide_table. }
  rewrite Forall_forall in Hall. intros Hin.
  destruct (Hall keyword Hin) as [Hwf Hsan].
  split; [done|]. split; [done|]. by apply normalize_sanitized.
Qed.

(** X6. the keyword check of [replaceReservedWords] looks at the identifier
    before it is normalized: a Go keyword with one more character before
    or after it that [normalize] drops is no key of the table, and
    normalizing it gives the keyword back, unescaped. *)
Theorem replaceReservedWords_returns_keyword keyword c :
  keyword ∈ go_keywords →
  normalize uni [c] = [] →
  replaceReservedWords uni (keyword ++ [c]) = keyword ∧
  replaceReservedWords uni (c :: keyword) = keyword.
Proof.
  intros Hkw Hdrop.
  destruct (go_keywords_clean keyword Hkw) as (Hwf & Hsan & Hnorm).
  assert (Hafter : normalize uni (keyword ++ [c]) = keyword).
  { unfold normalize in *. rewrite normalize_in_app, Hnorm, Hdrop.
    apply app_nil_r. }
  assert (Hbefore : normalize uni (c :: keyword) = keyword).
  { change (c :: keyword) with ([c] ++ keyword). unfold normalize in *.
    by rewrite normalize_in_app, Hnorm, Hdrop. }
  assert (Hno : ∀ identifier,
            normalize uni identifier = keyword →
            length identifier = S (length keyword) →
            map_get reservedWords identifier = []).
  { intros identifier Hn Hlen. unfold map_get.
    destruct (reservedWords !! identifier) as [v|] eqn:Hlook; [|done].
    exfalso.
    assert (Hin : identifier ∈ go_keywords).
    { apply dec_stable. intros Hnot. apply reservedWords_keys in Hnot.
      congruence. }
    destruct (go_keywords_clean identifier Hin) as (_ & _ & Hid).
    rewrite Hn in Hid. rewrite <- Hid in Hlen. lia. }
  unfold replaceReservedWords. rewrite !Hno.
  - by destruct (decide ([] ≠ [])).
  - done.
  - reflexivity.
  - done.
  - rewrite length_app. cbn. lia.
Qed.

Lemma reservedWordsInAttr_insert :
  reservedWordsInAttr = <[str "string" := str "astring"]> reservedWords.
Proof. by vm_compute. Qed.

(** X7. [replaceAttrReservedWords] is [replaceReservedWords] except at the
    identifier [string], which it maps to [astring]; what it returns for a
    key of its table is no key of the table and no Go keyword, and is
    returned unchanged when given again. *)
Theorem replaceAttrReservedWords_cases :
  (∀ identifier,
     identifier ≠ str "string" →
     replaceAttrReservedWords uni identifier =
       replaceReservedWords uni identifier) ∧
  replaceAttrReservedWords uni (str "string") = str "astring" ∧
  replaceReservedWords uni (str "string") = str "string" ∧
  (∀ key value,
     reservedWordsInAttr !! key = Some value →
     replaceAttrReservedWords uni key = value ∧
     reservedWordsInAttr !! value = None ∧
     (value ∉ go_keywords) ∧
     replaceAttrReservedWords uni value = value).
Proof.
  split; [|split; [done|split; [done|]]].
  - intros identifier Hne.
    unfold replaceAttrReservedWords, replaceReservedWords, map_get.
    by rewrite reservedWordsInAttr_insert, lookup_insert_ne.
  - apply (table_Forall (λ key value,
      replaceAttrReservedWords uni key = value ∧
      reservedWordsInAttr !! value = None ∧
      (value ∉ go_keywords) ∧
      replaceAttrReservedWords uni value = value)).
    decide_table.
Qed.


End sanitize_facts.

(** [normalize] with the entries taken in the other order. *)
Lemma normalize_any_order_witness :
  reverse specialCharacterMapping ≡ₚ specialCharacterMapping ∧
  normalize_in ascii_tables (reverse specialCharacterMapping) (str "a+b@c") =
    normalize ascii_tables (str "a+b@c").
Proof.
  assert (Hperm : reverse specialCharacterMapping ≡ₚ specialCharacterMapping)
    by apply reverse_Permutation.
  split; [exact Hperm|].
  exact (normalize_any_order ascii_tables _ (str "a+b@c") Hperm).
Defined.

(** The identifiers [go!] and [!go]. *)
Lemma replaceReservedWords_returns_keyword_witness :
  (str "go" ∈ go_keywords) ∧ normalize ascii_tables [33%Z] = [] ∧
  replaceReservedWords ascii_tables (str "go!") = str "go" ∧
  replaceReservedWords ascii_tables (str "!go") = str "go".
Proof.
  assert (Hkw : str "go" ∈ go_keywords) by decide_table.
  split; [exact Hkw|]. split; [reflexivity|].
  exact (replaceReservedWords_returns_keyword ascii_tables (str "go") 33%Z
           Hkw eq_refl).
Defined.


(** ** String literals and comments *)

Section text_facts.
Context (uni : UnicodeTables).
Local Open Scope Z_scope.

Lemma goString_cons r (s : gostring) :
  goString (r :: s) =
  (if decide (r = 34) then [92; 34] else [r]) ++ goString s.
Proof. reflexivity. Qed.

Lemma goString_head (s : gostring) : head (goString s) ≠ Some 34.
Proof.
  destruct s as [|r s]; [done|]. rewrite goString_cons.
  destruct (decide (r = 34)); cbn; congruence.
Qed.

Lemma goString_inj (s : gostring) : ∀ t, goString s = goString t → s = t.
Proof.
  induction s as [|r s IH]; intros [|r' t] Heq.
  - done.
  - rewrite goString_cons in Heq. cbn in Heq.
    destruct (decide (r' = 34)); discriminate.
  - rewrite goString_cons in Heq. cbn in Heq.
    destruct (decide (r = 34)); discriminate.
  - rewrite !goString_cons in Heq.
    destruct (decide (r = 34)) as [->|Hr], (decide (r' = 34)) as [->|Hr'];
      cbn in Heq.
    + injection Heq as Heq. f_equal. by apply IH.
    + injection Heq as <- Heq. exfalso.
      apply (goString_head t). by rewrite <- Heq.
    + injection Heq as -> Heq. exfalso.
      apply (goString_head s). by rewrite Heq.
    + injection Heq as -> Heq. f_equal. by apply IH.
Qed.

(** X9. [goString] changes nothing but the double quotes: a string without
    one is returned as it is; in what it returns every double quote
    comes right after a backslash; and two different strings never give
    the same result. *)
Theorem goString_escapes_quotes (s : gostring) :
  (34 ∉ s → goString s = s) ∧
  (∀ pre post, goString s = pre ++ 34 :: post → ∃ pre', pre = pre' ++ [92]) ∧
  (∀ t, goString s = goString t → s = t).
Proof.
  split; [apply strings_ReplaceAll_absent|]. split; [|apply goString_inj].
  induction s as [|r s IH]; intros pre post Heq.
  { by destruct pre. }
  rewrite goString_cons in Heq.
  destruct (decide (r = 34)) as [->|Hr]; cbn in Heq.
  - destruct pre as [|x [|y pre]]; cbn in Heq.
    + discriminate.
    + injection Heq as Hx _. subst x. by exists [].
    + injection Heq as Hx Hy Heq. subst x y.
      destruct (IH _ _ Heq) as [pre' ->]. by exists (92 :: 34 :: pre').
  - destruct pre as [|x pre]; cbn in Heq.
    + injection Heq as Hx _. done.
    + injection Heq as Hx Heq. subst x.
      destruct (IH _ _ Heq) as [pre' ->]. by exists (r :: pre').
Qed.

Lemma trim_left_suffix (line : gostring) :
  ∃ pre, line = pre ++ trim_left uni line.
Proof.
  induction line as [|r line [pre IH]]; [by exists []|]. cbn.
  destruct (unicode_IsSpace uni r); [|by exists []].
  exists (r :: pre). cbn. by rewrite <- IH.
Qed.

Lemma comment_loop (lines : list gostring) : ∀ output hasComment,
  foldl (comment_step uni) (output, hasComment) lines =
  (output ++ concat ((λ line, comment_lead ++ trim_left uni line) <$> lines),
   hasComment || bool_decide (¬ Forall (λ line, trim_left uni line = []) lines)).
Proof.
  induction lines as [|line lines IH]; intros output hasComment; cbn [foldl].
  - cbn. rewrite app_nil_r. f_equal. by rewrite orb_false_r.
  - unfold comment_step at 2. cbn [fst snd]. rewrite IH. cbn.
    rewrite <- !app_assoc. f_equal. rewrite <- orb_assoc. f_equal.
    destruct (decide (trim_left uni line = [])) as [Hblank|Hsome].
    + rewrite (bool_decide_eq_false_2 (trim_left uni line ≠ [])) by tauto.
      cbn. apply bool_decide_ext. rewrite Forall_cons. tauto.
    + rewrite (bool_decide_eq_true_2 (trim_left uni line ≠ [])) by done.
      cbn. symmetry. apply bool_decide_eq_true_2. rewrite Forall_cons. tauto.
Qed.

Lemma strings_Split_joined sep (qs : list gostring) : ∀ q,
  Forall (λ q, sep ∉ q) (q :: qs) →
  strings_Split sep (q ++ concat ((λ q, sep :: q) <$> qs)) = q :: qs.
Proof.
  induction qs as [|q' qs IH]; intros q Hall.
  - cbn. rewrite app_nil_r. apply strings_Split_absent.
    by apply Forall_cons in Hall as [? _].
  - apply Forall_cons in Hall as [Hq Hall]. cbn.
    rewrite strings_Split_app by done. f_equal. by apply IH.
Qed.

(** X10. [comment] returns the empty string when every line of the text is
    blank; otherwise it returns, for each line of the text in order, a
    line break, two slashes, a space and the line without its leading
    white space, so that every line of the result after the first, empty
    one starts with the comment marker. *)
Theorem comment_lines text :
  let lines := strings_Split 10 text in
  let blank := Forall (λ line, trim_left uni line = []) lines in
  (blank → comment uni text = []) ∧
  (¬ blank →
     comment uni text =
       concat ((λ line, comment_lead ++ trim_left uni line) <$> lines) ∧
     strings_Split 10 (comment uni text) =
       [] :: ((λ line, str "// " ++ trim_left uni line) <$> lines)).
Proof.
  intros lines blank. unfold comment. fold lines.
  rewrite comment_loop. cbn [orb app].
  split.
  - intros Hblank.
    destruct (decide (length lines = 1%nat ∧ lines !! 0%nat = Some []));
      [done|].
    by rewrite bool_decide_eq_false_2 by tauto.
  - intros Hsome.
    destruct (decide (length lines = 1%nat ∧ lines !! 0%nat = Some []))
      as [[Hlen Hfirst]|_].
    { exfalso. apply Hsome. unfold blank.
      destruct lines as [|line [|? ?]]; try discriminate.
      injection Hfirst as ->. by repeat constructor. }
    rewrite bool_decide_eq_true_2 by done. split; [reflexivity|].
    pose proof (strings_Split_joined 10
                  ((λ line, str "// " ++ trim_left uni line) <$> lines) [])
      as Hsplit.
    cbn [app] in Hsplit.
    rewrite <- list_fmap_compose in Hsplit.
    rewrite <- Hsplit; [reflexivity|].
    constructor; [apply not_elem_of_nil|].
    apply Forall_fmap.
    pose proof (strings_Split_pieces 10 text) as Hpieces. fold lines in Hpieces.
    eapply Forall_impl; [exact Hpieces|].
    intros line Hline Hin. cbn in Hin.
    destruct (trim_left_suffix line) as [pre Hpre].
    repeat (apply elem_of_cons in Hin as [Hin|Hin]; [discriminate|]).
    apply Hline. rewrite Hpre. apply elem_of_app. by right.
Qed.

End text_facts.

(** ** Binding and address lookup *)

Section address_facts.
Context (uni : UnicodeTables).

Lemma findSOAPAction_operations_first operation ops :
  findSOAPAction_operations operation ops =
  head ((λ soapOp, WSDLSOAPOperation.SOAPAction
                     (WSDLOperation.SOAPOperation soapOp))
        <$> filter (λ soapOp, WSDLOperation.Name soapOp = operation) ops).
Proof.
  induction ops as [|soapOp ops IH]; [reflexivity|].
  cbn [findSOAPAction_operations]. rewrite filter_cons.
  by destruct (decide (WSDLOperation.Name soapOp = operation)).
Qed.

Lemma findSOAPAction_bindings_first operation portType bindings :
  findSOAPAction_bindings uni operation portType bindings =
  head (matching_actions uni bindings operation portType).
Proof.
  induction bindings as [|binding rest IH]; [reflexivity|].
  unfold matching_actions in *. cbn [findSOAPAction_bindings mbind list_bind].
  destruct (decide (strings_ToUpper uni (stripns (WSDLBinding.Type_ binding))
                    ≠ strings_ToUpper uni portType)) as [Hne|Heq].
  - by destruct (decide (strings_ToUpper uni
                           (stripns (WSDLBinding.Type_ binding))
                         = strings_ToUpper uni portType)).
  - destruct (decide (strings_ToUpper uni
                        (stripns (WSDLBinding.Type_ binding))
                      = strings_ToUpper uni portType)); [|done].
    rewrite findSOAPAction_operations_first, IH.
    by destruct (_ <$> filter _ (WSDLBinding.Operations binding)).
Qed.

(** X11. [findSOAPAction] returns the SOAP action of the first operation
    with the given name among the bindings whose namespace-stripped port
    type equals the given one once both are upper-cased, in the order of
    the document, and the empty string when there is none.  A binding of
    that port type without such an operation does not end the search, and
    two port types that upper-case to the same string give the same
    answer. *)
Theorem findSOAPAction_first_match bindings operation portType :
  findSOAPAction uni bindings operation portType =
    default [] (head (matching_actions uni bindings operation portType)) ∧
  (matching_actions uni bindings operation portType = [] →
     findSOAPAction uni bindings operation portType = []) ∧
  (∀ binding rest,
     bindings = binding :: rest →
     Forall (λ soapOp, WSDLOperation.Name soapOp ≠ operation)
       (WSDLBinding.Operations binding) →
     findSOAPAction uni bindings operation portType =
       findSOAPAction uni rest operation portType) ∧
  (∀ portType',
     strings_ToUpper uni portType' = strings_ToUpper uni portType →
     findSOAPAction uni bindings operation portType' =
       findSOAPAction uni bindings operation portType).
Proof.
  unfold findSOAPAction. rewrite findSOAPAction_bindings_first.
  split; [done|]. split; [by intros ->|]. split.
  - intros binding rest -> Hnone.
    rewrite findSOAPAction_bindings_first. unfold matching_actions.
    cbn [mbind list_bind].
    assert (Hfilter : filter (λ soapOp, WSDLOperation.Name soapOp = operation)
                        (WSDLBinding.Operations binding) = []).
    { induction Hnone as [|soapOp ops Hne _ IH]; [reflexivity|].
      rewrite filter_cons.
      by destruct (decide (WSDLOperation.Name soapOp = operation)). }
    rewrite Hfilter. by case_decide.
  - intros portType' Heq. rewrite findSOAPAction_bindings_first.
    unfold matching_actions. by rewrite Heq.
Qed.

Lemma findServiceAddress_ports_first name ports :
  findServiceAddress_ports name ports =
  head ((λ port, WSDLSOAPAddress.Location (WSDLPort.SOAPAddress port))
        <$> filter (λ port, WSDLPort.Name port = name) ports).
Proof.
  induction ports as [|port ports IH]; [reflexivity|].
  cbn [findServiceAddress_ports]. rewrite filter_cons.
  by destruct (decide (WSDLPort.Name port = name)).
Qed.

Lemma findServiceAddress_services_first name services :
  findServiceAddress_services name services =
  head (matching_addresses services name).
Proof.
  unfold matching_addresses.
  induction services as [|service rest IH]; [reflexivity|].
  cbn [findServiceAddress_services mbind list_bind].
  rewrite findServiceAddress_ports_first, IH, filter_app, fmap_app.
  by destruct (_ <$> filter _ (WSDLService.Ports service)).
Qed.

(** X12. [findServiceAddress] returns the address of the first port with the
    given name over all services, in the order of the document, and the
    empty string when no port has that name; services without such a port
    are passed over. *)
Theorem findServiceAddress_first_match services name :
  findServiceAddress services name =
    default [] (head (matching_addresses services name)) ∧
  (Forall (λ port, WSDLPort.Name port ≠ name)
     (services ≫= WSDLService.Ports) →
   findServiceAddress services name = []) ∧
  (∀ before after,
     services = before ++ after →
     Forall (λ port, WSDLPort.Name port ≠ name)
       (before ≫= WSDLService.Ports) →
     findServiceAddress services name = findServiceAddress after name).
Proof.
  assert (Hnone : ∀ ports : list WSDLPort.t,
            Forall (λ port, WSDLPort.Name port ≠ name) ports →
            filter (λ port, WSDLPort.Name port = name) ports = []).
  { induction 1 as [|port ports Hne _ IH]; [reflexivity|].
    rewrite filter_cons. by destruct (decide (WSDLPort.Name port = name)). }
  unfold findServiceAddress. rewrite findServiceAddress_services_first.
  split; [done|]. split.
  - intros Hall. unfold matching_addresses. by rewrite Hnone.
  - intros before after -> Hall.
    rewrite findServiceAddress_services_first. unfold matching_addresses.
    by rewrite bind_app, filter_app, Hnone.
Qed.

End address_facts.

(** ** More on collision resolution *)

Section collision_more.
Local Open Scope Z_scope.

Lemma occurrences_absent n (l : list gostring) : n ∉ l → occurrences n l = 0.
Proof.
  induction l as [|x l IH]; intros Hnot; [reflexivity|].
  apply not_elem_of_cons in Hnot as [Hne Hnot].
  rewrite occurrences_cons, IH by done.
  by destruct (decide (n = x)).
Qed.

Lemma occurrences_NoDup n (l : list gostring) : NoDup l → occurrences n l ≤ 1.
Proof.
  induction 1 as [|x l Hnot _ IH]; [by rewrite occurrences_nil|].
  rewrite occurrences_cons. destruct (decide (n = x)) as [->|]; [|lia].
  rewrite occurrences_absent by done. lia.
Qed.

Lemma rename_complex_idle ns st l :
  (∀ n, seen_get (seen st) n = 0) → rename_complex ns st l = (l, st).
Proof.
  intros Hzero. induction l as [|[name] l IH]; [reflexivity|]. cbn.
  rewrite rename_decl_skips by (rewrite Hzero; lia). by rewrite IH.
Qed.

Lemma rename_simple_idle ns st l :
  (∀ n, seen_get (seen st) n = 0) → rename_simple ns st l = (l, st).
Proof.
  intros Hzero. induction l as [|[name] l IH]; [reflexivity|]. cbn.
  rewrite rename_decl_skips by (rewrite Hzero; lia). by rewrite IH.
Qed.

Lemma rename_schemas_idle st schemas :
  (∀ n, seen_get (seen st) n = 0) → rename_schemas st schemas = (schemas, st).
Proof.
  intros Hzero. induction schemas as [|schema rest IH]; [reflexivity|].
  cbn [rename_schemas]. unfold rename_schema.
  rewrite rename_complex_idle, rename_simple_idle, IH by done.
  by destruct schema.
Qed.

(** X13. on a collection in which no type name occurs twice, collision
    resolution changes nothing: the schemas are returned as they are, the
    collision map stays empty, nothing is logged, and no counter is
    left. *)
Theorem resolve_collisions_without_collision schemas :
  Z.of_nat (length (all_decl_names schemas)) < 2 ^ 63 →
  NoDup (all_decl_names schemas) →
  resolve_collisions schemas =
    (schemas, {| seen := ∅; resolveCollisions := ∅; logged := [] |}).
Proof.
  intros Hlen Hnd. unfold resolve_collisions.
  assert (Hempty : drop_unique (count_names schemas) = ∅).
  { apply map_eq. intros k. rewrite lookup_empty. unfold drop_unique.
    apply map_lookup_filter_None. right. intros v Hv. cbn.
    pose proof (seen_get_count_names schemas k Hlen) as Hcount.
    unfold seen_get in Hcount. rewrite Hv in Hcount. cbn in Hcount.
    pose proof (occurrences_NoDup k _ Hnd). lia. }
  rewrite Hempty. apply rename_schemas_idle.
  intros n. unfold seen_get. cbn. by rewrite lookup_empty.
Qed.

Lemma app_sep_inj (sep : Z) (a : gostring) : ∀ b o1 o2 : gostring,
  sep ∉ o1 → sep ∉ o2 →
  a ++ sep :: o1 = b ++ sep :: o2 → a = b ∧ o1 = o2.
Proof.
  induction a as [|x a IH]; intros [|y b] o1 o2 H1 H2 Heq; cbn in Heq.
  - by injection Heq as ->.
  - injection Heq as <- Heq. exfalso. apply H1. rewrite Heq.
    apply elem_of_app. right. by left.
  - injection Heq as -> Heq. exfalso. apply H2. rewrite <- Heq.
    apply elem_of_app. right. by left.
  - injection Heq as -> Heq. destruct (IH _ _ _ H1 H2 Heq) as [-> ->]. done.
Qed.

(** X14. when type names hold no slash, the key of the collision map tells
    the namespace and the name apart: two declarations have the same key
    only if they have the same namespace and the same name. *)
Theorem collision_key_inj ns1 org1 ns2 org2 :
  chr "/" ∉ org1 → chr "/" ∉ org2 →
  collision_key ns1 org1 = collision_key ns2 org2 →
  ns1 = ns2 ∧ org1 = org2.
Proof.
  intros H1 H2 Heq. unfold collision_key in Heq.
  by apply (app_sep_inj (chr "/")) in Heq.
Qed.

Lemma pretty_N_go_nonempty (x : N) : ∀ c s,
  pretty.pretty_N_go x (String c s) ≠ EmptyString.
Proof.
  induction (N.lt_wf_0 x) as [x _ IH]. intros c s.
  destruct (decide (x = 0)%N) as [->|Hx].
  - by rewrite pretty.pretty_N_go_0.
  - rewrite pretty.pretty_N_go_step by lia. apply IH.
    apply N.div_lt; lia.
Qed.

Lemma fmt_d_nonempty z : 0 < z → fmt_d z ≠ [].
Proof.
  intros Hz. destruct z as [|p|p]; try lia.
  unfold fmt_d, pretty, pretty_Z, pretty, pretty_positive, pretty, pretty_N.
  destruct (decide (N.pos p = 0)%N); [done|].
  rewrite pretty.pretty_N_go_step by lia.
  intros Heq. apply (pretty_N_go_nonempty (N.pos p `div` 10)
                       (pretty.pretty_N_char (N.pos p `mod` 10)) EmptyString).
  destruct (pretty.pretty_N_go _ _); [done|discriminate].
Qed.

(** One step logs a line exactly when it changes the name. *)
Lemma rename_decl_logs kind ns st name :
  logged (rename_decl kind ns st name).2 =
  logged st ++
  (if decide ((rename_decl kind ns st name).1 ≠ name)
   then [collision_log kind name (rename_decl kind ns st name).1 ns]
   else []).
Proof.
  unfold rename_decl.
  destruct (decide (0 < seen_get (seen st) name)) as [Hpos|Hpos]; cbn.
  - destruct (decide (name ++ fmt_d (seen_get (seen st) name) ≠ name))
      as [_|Hsame]; [done|].
    exfalso. apply Hsame. intros Heq.
    assert (Heq' : name ++ fmt_d (seen_get (seen st) name) = name ++ [])
      by by rewrite app_nil_r.
    apply app_inv_head in Heq'. by apply fmt_d_nonempty in Heq'.
  - destruct (decide (name ≠ name)); [done|]. by rewrite app_nil_r.
Qed.

Lemma rename_flat_logs l : ∀ st,
  logged (rename_flat st l).2 =
  logged st ++ renamed_log l (rename_flat st l).1.
Proof.
  induction l as [|[[kind ns] name] l IH]; intros st.
  { cbn. by rewrite app_nil_r. }
  cbn [rename_flat].
  pose proof (rename_decl_logs kind ns st name) as Hstep.
  destruct (rename_decl kind ns st name) as [update st1].
  specialize (IH st1). destruct (rename_flat st1 l) as [us st2].
  cbn [fst snd] in *. rewrite IH, Hstep, <- app_assoc. f_equal.
  unfold renamed_log. cbn.
  by destruct (decide (update ≠ name)).
Qed.

(** X15. every renaming is logged, and nothing else: the log of collision
    resolution holds, in traversal order, one line for each declaration
    whose name changed, with its kind, old name, new name and
    namespace. *)
Theorem resolve_collisions_log schemas :
  logged (resolve_collisions schemas).2 =
  renamed_log (kinded_decls schemas)
    (all_decl_names (resolve_collisions schemas).1).
Proof.
  unfold resolve_collisions.
  pose proof (rename_schemas_flat schemas
    {| seen := drop_unique (count_names schemas);
       resolveCollisions := ∅; logged := [] |}) as Hflat.
  destruct (rename_schemas _ schemas) as [schemas' st']. cbn [fst snd] in *.
  pose proof (rename_flat_logs (kinded_decls schemas)
    {| seen := drop_unique (count_names schemas);
       resolveCollisions := ∅; logged := [] |}) as Hlog.
  rewrite <- Hflat in Hlog. exact Hlog.
Qed.

End collision_more.

(** A collection without collision is left as it is. *)
Lemma resolve_collisions_without_collision_witness :
  (Z.of_nat (length (all_decl_names distinct_items)) < 2 ^ 63)%Z ∧
  NoDup (all_decl_names distinct_items) ∧
  (resolve_collisions distinct_items).1 = distinct_items.
Proof.
  assert (Hlen : (Z.of_nat (length (all_decl_names distinct_items)) < 2 ^ 63)%Z)
    by reflexivity.
  assert (Hnd : NoDup (all_decl_names distinct_items)) by decide_table.
  split; [exact Hlen|]. split; [exact Hnd|].
  exact (f_equal fst
           (resolve_collisions_without_collision distinct_items Hlen Hnd)).
Defined.

(** The keys of [Item] in two namespaces. *)
Lemma collision_key_inj_witness :
  (chr "/" ∉ str "Item") ∧
  collision_key (str "http://a/b") (str "Item") =
    collision_key (str "http://a/b") (str "Item") ∧
  str "http://a/b" = str "http://a/b" ∧ str "Item" = str "Item".
Proof.
  assert (Hno : chr "/" ∉ str "Item") by decide_table.
  split; [exact Hno|]. split; [reflexivity|].
  exact (collision_key_inj (str "http://a/b") (str "Item") (str "http://a/b")
           (str "Item") Hno Hno eq_refl).
Defined.

(** ** More on the command and on resolution *)

Section trim_facts.
Context (uni : UnicodeTables).

Lemma trim_left_head (s : gostring) r :
  head (trim_left uni s) = Some r → unicode_IsSpace uni r = false.
Proof.
  induction s as [|x s IH]; [done|]. cbn.
  destruct (unicode_IsSpace uni x) eqn:Hx; [done|].
  by intros [= <-].
Qed.

Lemma trim_left_fixed (s : gostring) :
  (∀ r, head s = Some r → unicode_IsSpace uni r = false) →
  trim_left uni s = s.
Proof.
  destruct s as [|x s]; [done|]. intros Hhead. cbn.
  by rewrite (Hhead x eq_refl).
Qed.

Lemma strings_TrimSpace_ends (s : gostring) r :
  head (strings_TrimSpace uni s) = Some r ∨
  last (strings_TrimSpace uni s) = Some r →
  unicode_IsSpace uni r = false.
Proof.
  unfold strings_TrimSpace. rewrite head_reverse, last_reverse.
  intros [Hlast|Hhead]; [|by eapply trim_left_head].
  destruct (trim_left_suffix uni (reverse (trim_left uni s))) as [pre Hpre].
  assert (Hl : last (reverse (trim_left uni s)) = Some r).
  { rewrite Hpre, last_app, Hlast. done. }
  rewrite last_reverse in Hl. by eapply trim_left_head.
Qed.

Lemma strings_TrimSpace_idempotent (s : gostring) :
  strings_TrimSpace uni (strings_TrimSpace uni s) = strings_TrimSpace uni s.
Proof.
  unfold strings_TrimSpace at 1.
  rewrite (trim_left_fixed (strings_TrimSpace uni s)).
  - rewrite trim_left_fixed; [apply reverse_involutive|].
    intros r Hr. rewrite head_reverse in Hr.
    eapply strings_TrimSpace_ends. by right.
  - intros r Hr. eapply strings_TrimSpace_ends. by left.
Qed.

End trim_facts.

Section generator_facts.
Context (uni : UnicodeTables).
Context {Location : Type} (ParseLocation : gostring → error + Location).

(** X16. [NewGoWSDL] fails in two cases only, a WSDL path that is blank
    (with its own message) and a path that [ParseLocation] rejects (with
    that error).  Otherwise the location of the generator is the parsed
    trimmed path, and its package name is never empty and carries no
    white space at either end: it is the trimmed name given, or
    [generated_from_wsdl] when that is empty. *)
Theorem NewGoWSDL_result file pkg ignoreTLS exportAllTypes :
  match NewGoWSDL uni ParseLocation file pkg ignoreTLS exportAllTypes with
  | inr g =>
      strings_TrimSpace uni file ≠ [] ∧
      ParseLocation (strings_TrimSpace uni file) = inr (g_loc g) ∧
      g_pkg g ≠ [] ∧
      strings_TrimSpace uni (g_pkg g) = g_pkg g ∧
      (strings_TrimSpace uni pkg ≠ [] → g_pkg g = strings_TrimSpace uni pkg) ∧
      (strings_TrimSpace uni pkg = [] → g_pkg g = str "generated_from_wsdl") ∧
      g_ignoreTLS g = ignoreTLS
  | inl err =>
      (strings_TrimSpace uni file = [] ∧
       err = str "WSDL file is required to generate Go proxy") ∨
      (strings_TrimSpace uni file ≠ [] ∧
       ParseLocation (strings_TrimSpace uni file) = inl err)
  end.
Proof.
  unfold NewGoWSDL.
  destruct (decide (strings_TrimSpace uni file = [])) as [Hfile|Hfile].
  { left. by split. }
  destruct (ParseLocation (strings_TrimSpace uni file)) as [err|r] eqn:Hloc.
  { right. by split. }
  cbn. split; [done|]. split; [done|].
  destruct (decide (strings_TrimSpace uni pkg = [])) as [Hpkg|Hpkg].
  - split; [done|]. split; [reflexivity|]. by repeat split.
  - split; [done|]. split; [apply strings_TrimSpace_idempotent|].
    by repeat split.
Qed.

End generator_facts.

Section fetch_facts.
Context {Location : Type} (w : World Location).

Lemma fetches_justified_nil srcs : fetches_justified w srcs [].
Proof. intros i l Hl. by rewrite lookup_nil in Hl. Qed.

Lemma fetches_justified_mono srcs srcs' new :
  srcs ⊆ srcs' → fetches_justified w srcs new → fetches_justified w srcs' new.
Proof.
  intros Hsub Hj i l Hl. destruct (Hj i l Hl) as [(b & r & Hin & Hp)|Hearlier].
  - left. exists b, r. split; [by apply Hsub|done].
  - by right.
Qed.

Lemma fetches_justified_app srcs n1 n2 :
  fetches_justified w srcs n1 → fetches_justified w srcs n2 →
  fetches_justified w srcs (n1 ++ n2).
Proof.
  intros H1 H2 i l Hl.
  destruct (decide (i < length n1)) as [Hlt|Hge].
  - rewrite lookup_app_l in Hl by done.
    destruct (H1 i l Hl) as [Hsrc|(j & l0 & s & ref & Hj & Hl0 & Hrest)];
      [by left|].
    right. exists j, l0, s, ref. split; [done|].
    rewrite lookup_app_l by lia. done.
  - rewrite lookup_app_r in Hl by lia.
    destruct (H2 _ l Hl) as [Hsrc|(j & l0 & s & ref & Hj & Hl0 & Hrest)];
      [by left|].
    right. exists (length n1 + j), l0, s, ref. split; [lia|].
    rewrite lookup_app_r by lia.
    replace (length n1 + j - length n1) with j by lia. done.
Qed.

(** A fetch for the reference [ref] read at [base], followed by the
    fetches made for the schema it returned. *)
Lemma fetches_justified_nested base ref location newschema new :
  Location_Parse w base ref = inr location →
  schema_at w location = Some newschema →
  fetches_justified w ((λ r, (location, r)) <$> external_refs newschema) new →
  fetches_justified w [(base, ref)] (location :: new).
Proof.
  intros Hparse Hat Hnew [|i] l Hl; cbn in Hl.
  - injection Hl as <-. left. exists base, ref. split; [by left|done].
  - right.
    destruct (Hnew i l Hl) as [(b & r & Hin & Hp)|(j & l0 & s & r & Hj & Hl0 & Hrest)].
    + apply list_elem_of_fmap in Hin as (r' & [= -> ->] & Hr').
      exists 0, location, newschema, r'. split; [lia|]. by repeat split.
    + exists (S j), l0, s, r. split; [lia|]. done.
Qed.

Lemma download_justified fuel base ref g :
  (∀ schema loc g,
     justified_post w ((λ r, (loc, r)) <$> external_refs schema) g
       (resolveXSDExternals w fuel schema loc g)) →
  justified_post w [(base, ref)] g
    (download w (resolveXSDExternals w fuel) base ref g).
Proof.
  intros IH. unfold download.
  destruct (Location_Parse w base ref) as [err|location] eqn:Hparse.
  { exists []. split; [by rewrite app_nil_r|apply fetches_justified_nil]. }
  destruct (decide (Location_String w location ∈ resolvedXSDExternals g)).
  { exists []. split; [by rewrite app_nil_r|apply fetches_justified_nil]. }
  assert (Hone : fetches_justified w [(base, ref)] [location]).
  { intros [|i] l Hl; cbn in Hl; [|done].
    injection Hl as <-. left. exists base, ref. split; [by left|done]. }
  destruct (fetchFile w location) as [err|data] eqn:Hfetch.
  { by exists [location]. }
  destruct (xml_Unmarshal w data) as [err|newschema] eqn:Hxml.
  { by exists [location]. }
  assert (Hat : schema_at w location = Some newschema).
  { unfold schema_at. by rewrite Hfetch, Hxml. }
  destruct (decide (0 < length (XSDSchema.Includes newschema) ∨
                    0 < length (XSDSchema.Imports newschema))).
  - specialize (IH newschema location
      {| resolvedXSDExternals :=
           {[Location_String w location]} ∪ resolvedXSDExternals g;
         Types_Schemas := Types_Schemas g;
         fetched := fetched g ++ [location] |}).
    destruct (resolveXSDExternals w fuel newschema location _)
      as [g2|err g2|]; [| |done].
    + destruct IH as (new & Hf & Hj). cbn in Hf. exists (location :: new).
      split; [cbn; by rewrite Hf, <- app_assoc|].
      by eapply fetches_justified_nested.
    + destruct IH as (new & Hf & Hj). cbn in Hf. exists (location :: new).
      split; [by rewrite Hf, <- app_assoc|].
      by eapply fetches_justified_nested.
  - by exists [location].
Qed.

Lemma download_all_justified dl base refs :
  (∀ ref g, justified_post w [(base, ref)] g (dl ref g)) →
  ∀ g, justified_post w ((λ r, (base, r)) <$> refs) g (download_all dl refs g).
Proof.
  intros Hdl. induction refs as [|ref rest IH]; intros g.
  { exists []. split; [by rewrite app_nil_r|apply fetches_justified_nil]. }
  cbn [download_all fmap list_fmap]. specialize (Hdl ref g).
  assert (Hhere : [(base, ref)] ⊆ (base, ref) :: ((λ r, (base, r)) <$> rest)).
  { intros x Hx. apply list_elem_of_singleton in Hx as ->. by left. }
  assert (Hthere : ((λ r, (base, r)) <$> rest)
                   ⊆ (base, ref) :: ((λ r, (base, r)) <$> rest)).
  { intros x Hx. by right. }
  destruct (dl ref g) as [g1|err g1|]; [| |done].
  - destruct Hdl as (n1 & Hf1 & Hj1). specialize (IH g1).
    destruct (download_all dl rest g1) as [g2|err g2|]; [| |done];
      destruct IH as (n2 & Hf2 & Hj2); exists (n1 ++ n2);
      (split; [by rewrite Hf2, Hf1, <- app_assoc|]);
      (apply fetches_justified_app;
         [by apply (fetches_justified_mono _ _ _ Hhere)
         |by apply (fetches_justified_mono _ _ _ Hthere)]).
  - destruct Hdl as (n1 & Hf1 & Hj1). exists n1. split; [done|].
    by apply (fetches_justified_mono _ _ _ Hhere).
Qed.

Lemma resolveXSDExternals_justified fuel : ∀ schema loc g,
  justified_post w ((λ r, (loc, r)) <$> external_refs schema) g
    (resolveXSDExternals w fuel schema loc g).
Proof.
  induction fuel as [|fuel IH]; intros schema loc g; [done|].
  rewrite resolveXSDExternals_unfold.
  apply download_all_justified. intros ref g'. by apply download_justified.
Qed.

Lemma unmarshal_loop_justified fuel loc roots : ∀ g,
  justified_post w (root_refs roots loc) g (unmarshal_loop w fuel roots loc g).
Proof.
  induction roots as [|root rest IH]; intros g.
  { exists []. split; [by rewrite app_nil_r|apply fetches_justified_nil]. }
  cbn [unmarshal_loop].
  pose proof (resolveXSDExternals_justified fuel root loc g) as Hroot.
  assert (Hhere : ((λ r, (loc, r)) <$> external_refs root)
                  ⊆ root_refs (root :: rest) loc).
  { intros x Hx. unfold root_refs. cbn. apply elem_of_app. by left. }
  assert (Hthere : root_refs rest loc ⊆ root_refs (root :: rest) loc).
  { intros x Hx. unfold root_refs. cbn. apply elem_of_app. by right. }
  destruct (resolveXSDExternals w fuel root loc g) as [g1|err g1|]; [| |done].
  - destruct Hroot as (n1 & Hf1 & Hj1). specialize (IH g1).
    destruct (unmarshal_loop w fuel rest loc g1) as [g2|err g2|]; [| |done];
      destruct IH as (n2 & Hf2 & Hj2); exists (n1 ++ n2);
      (split; [by rewrite Hf2, Hf1, <- app_assoc|]);
      (apply fetches_justified_app;
         [by apply (fetches_justified_mono _ _ _ Hhere)
         |by apply (fetches_justified_mono _ _ _ Hthere)]).
  - destruct Hroot as (n1 & Hf1 & Hj1). exists n1. split; [done|].
    by apply (fetches_justified_mono _ _ _ Hhere).
Qed.

(** X17. resolution fetches nothing without a reason.  In every run, ended
    well or by an error, each location fetched is the location of a
    reference (an import with a location, or an include) of a schema
    embedded in the WSDL, read at the location of the WSDL, or of a schema
    found at a location fetched before it, read at that location. *)
Theorem resolution_fetches_only_referenced fuel roots loc :
  match unmarshal_externals w fuel roots loc with
  | Done g | Failed _ g =>
      ∀ i l, fetched g !! i = Some l →
        (∃ root ref,
           root ∈ roots ∧ ref ∈ external_refs root ∧
           Location_Parse w loc ref = inr l) ∨
        (∃ j l0 schema ref,
           j < i ∧ fetched g !! j = Some l0 ∧ schema_at w l0 = Some schema ∧
           ref ∈ external_refs schema ∧ Location_Parse w l0 ref = inr l)
  | OutOfFuel => True
  end.
Proof.
  unfold unmarshal_externals.
  pose proof (unmarshal_loop_justified fuel loc roots
    {| resolvedXSDExternals := ∅; Types_Schemas := roots; fetched := [] |})
    as Hpost.
  assert (Hroots : ∀ g new,
    fetched g = [] ++ new → fetches_justified w (root_refs roots loc) new →
    ∀ i l, fetched g !! i = Some l →
      (∃ root ref,
         root ∈ roots ∧ ref ∈ external_refs root ∧
         Location_Parse w loc ref = inr l) ∨
      (∃ j l0 schema ref,
         j < i ∧ fetched g !! j = Some l0 ∧ schema_at w l0 = Some schema ∧
         ref ∈ external_refs schema ∧ Location_Parse w l0 ref = inr l)).
  { intros g new Hf Hj i l Hl. cbn in Hf. rewrite Hf in *.
    destruct (Hj i l Hl) as [(b & r & Hin & Hp)|Hearlier]; [|by right].
    left. unfold root_refs in Hin.
    apply list_elem_of_bind in Hin as (root & Hin & Hroot).
    apply list_elem_of_fmap in Hin as (r' & [= -> ->] & Hr').
    by exists root, r'. }
  destruct (unmarshal_loop w fuel roots loc _) as [g|err g|]; [| |done];
    destruct Hpost as (new & Hf & Hj); by eapply Hroots.
Qed.

End fetch_facts.
